(** * Jukebox server: the chunked sender and the epoll dispatch loop

    A shallow embedding of [ChunkedDataSender.cpp] (class [ArraySender]) and of
    the dispatch part of [jukebox-server.cpp] ([setup_new_client],
    [event_loop]).

    Conventions.
    - The target is Linux on an LP64 machine: [size_t] is an unsigned 64-bit
      integer and [ssize_t] a signed one.  Integers are [Z]; the wrap-around
      of [size_t] arithmetic is written out with [size_t_wrap].
    - Code that talks to the operating system runs in the monad [M]: it
      threads a [World] (the kernel's side of the sockets and of the epoll
      instance) and ends with a value, with a call of [exit], or with an
      out-of-bounds memory access.
    - Text written to stdout and stderr ([cout], [cerr], [perror]) is not
      part of the model, except for the listing that [find_mp3_files]
      writes. *)

From Stdlib Require Import ZArith Lia List.
From Stdlib.Strings Require Import Byte.
From Stdlib Require String.
From stdpp Require Import base gmap list.
Import String.StringSyntax.
Delimit Scope string_scope with string.

Local Open Scope Z_scope.

(** ** Machine integers and system constants *)

Definition SIZE_MAX : Z := 2 ^ 64 - 1.
Definition SSIZE_MAX : Z := 2 ^ 63 - 1.

(** Conversion of a mathematical integer to [size_t]. *)
Definition size_t_wrap (z : Z) : Z := z mod 2 ^ 64.

(** <errno.h>, <stdlib.h> and <sys/epoll.h> on Linux. *)
Definition EAGAIN : Z := 11.
Definition ECONNRESET : Z := 104.
Definition EXIT_FAILURE : Z := 1.
Definition EPOLLIN : Z := 0x001.
Definition EPOLLOUT : Z := 0x004.
Definition EPOLLRDHUP : Z := 0x2000.

(** ** The world outside the process *)

(** What one call of send(2) gives back: its return value and the value of
    [errno] right after it. *)
Record send_result := { ret : Z; errno : Z }.

(** The kernel's side.
    - [net k fd buf] is the answer to the [k]-th call of send(2) of the run
      (counted from 0), made on socket [fd] with the bytes [buf];
    - [sent] logs every call of send(2): the socket and the bytes offered;
    - [interest] is the interest list of the epoll instance (descriptor to
      event mask);
    - [nonblocking] holds the descriptors with O_NONBLOCK set;
    - [pending] holds the descriptors that the next calls of accept(2) give. *)
Record World := {
  net : nat -> Z -> list byte -> send_result;
  sent : list (Z * list byte);
  interest : gmap Z Z;
  nonblocking : gset Z;
  pending : list Z
}.

Definition set_sent (f : list (Z * list byte) -> list (Z * list byte)) (w : World) : World :=
  {| net := net w; sent := f (sent w); interest := interest w;
     nonblocking := nonblocking w; pending := pending w |}.

Definition set_interest (f : gmap Z Z -> gmap Z Z) (w : World) : World :=
  {| net := net w; sent := sent w; interest := f (interest w);
     nonblocking := nonblocking w; pending := pending w |}.

Definition set_nonblocking (f : gset Z -> gset Z) (w : World) : World :=
  {| net := net w; sent := sent w; interest := interest w;
     nonblocking := f (nonblocking w); pending := pending w |}.

Definition set_pending (f : list Z -> list Z) (w : World) : World :=
  {| net := net w; sent := sent w; interest := interest w;
     nonblocking := nonblocking w; pending := f (pending w) |}.

(** ** The monad of the server's code *)

Inductive Result (A : Type) : Type :=
| Ok (a : A) (w : World)          (* the call returned [a] *)
| Exit (status : Z) (w : World)   (* the process called [exit(status)] *)
| Fault.                          (* memory was accessed out of bounds *)

Arguments Ok {A} a w.
Arguments Exit {A} status w.
Arguments Fault {A}.

Definition M (A : Type) : Type := World -> Result A.

Definition ret_M {A} (a : A) : M A := fun w => Ok a w.

Definition bind_M {A B} (c : M A) (k : A -> M B) : M B := fun w =>
  match c w with
  | Ok a w' => k a w'
  | Exit st w' => Exit st w'
  | Fault => Fault
  end.

Definition exit {A} (status : Z) : M A := fun w => Exit status w.

Definition fault {A} : M A := fun _ => Fault.

Declare Scope srv_scope.
Delimit Scope srv_scope with srv.
Notation "x <- c ;; k" := (bind_M c (fun x => k))
  (at level 100, c at next level, right associativity) : srv_scope.
Notation "c ;;; k" := (bind_M c (fun _ => k))
  (at level 100, right associativity) : srv_scope.

(** send(2) on a stream socket: the kernel's answer is [net]'s, and the call
    is logged. *)
Definition sys_send (sock_fd : Z) (buf : list byte) : M send_result := fun w =>
  Ok (net w (length (sent w)) sock_fd buf) (set_sent (fun l => l ++ [(sock_fd, buf)]) w).

(** ** Memory *)

(** The indices of [src] that [memcpy(dst, src + off, n)] reads. *)
Definition memcpy_reads (off n : Z) : list nat :=
  seq (Z.to_nat off) (Z.to_nat n).

(** [memcpy(dst, src + off, n)] into a buffer [dst] of [dst_size] bytes: the
    bytes now at [dst[0..n)], or [None] when a byte is written past the end of
    [dst] or read past the end of [src]. *)
Definition memcpy (dst_size : Z) (src : list byte) (off n : Z) : option (list byte) :=
  if Z.leb n dst_size then mapM (fun i => src !! i) (memcpy_reads off n) else None.

(** ** ChunkedDataSender.cpp *)

Record ArraySender := {
  array : list byte;
  array_length : Z;
  curr_loc : Z
}.

Definition set_curr_loc (v : Z) (s : ArraySender) : ArraySender :=
  {| array := array s; array_length := array_length s; curr_loc := v |}.

(** [ArraySender::ArraySender(array_to_send, length)]: an owned copy of the
    first [length] bytes of the caller's buffer, or [None] when the buffer
    is shorter than [length] (the copy would read past its end). *)
Definition ArraySender_new (array_to_send : list byte) (length : Z) : option ArraySender :=
  match mapM (fun i => array_to_send !! i) (memcpy_reads 0 length) with
  | Some copy => Some {| array := copy; array_length := length; curr_loc := 0 |}
  | None => None
  end.

Section Sender.

(** [CHUNK_SIZE] is a [size_t] constant of ChunkedDataSender.h, which is not
    among the sources: it is a parameter here.  [char chunk[CHUNK_SIZE]] is an
    object, so its size is positive and at most [SSIZE_MAX]. *)
Variable CHUNK_SIZE : Z.
Hypothesis CHUNK_SIZE_range : 0 < CHUNK_SIZE <= SSIZE_MAX.

(** [ArraySender::send_next_chunk(sock_fd)]: the value returned and the
    sender after the call. *)
Definition send_next_chunk (s : ArraySender) (sock_fd : Z) : M (Z * ArraySender) :=
  let num_bytes_remaining := size_t_wrap (array_length s - curr_loc s) in
  let bytes_in_chunk := Z.min num_bytes_remaining CHUNK_SIZE in
  if Z.ltb 0 bytes_in_chunk then
    match memcpy CHUNK_SIZE (array s) (curr_loc s) bytes_in_chunk with
    | None => fault
    | Some chunk =>
        (r <- sys_send sock_fd chunk ;;
         let num_bytes_sent := ret r in
         if Z.ltb 0 num_bytes_sent then
           ret_M (num_bytes_sent,
                  set_curr_loc (size_t_wrap (curr_loc s + num_bytes_sent)) s)
         else if andb (Z.ltb num_bytes_sent 0) (Z.eqb (errno r) EAGAIN) then
           ret_M (-1, s)
         else
           exit EXIT_FAILURE)%srv
    end
  else
    ret_M (0, s).

(** A caller that drains a sender (the transmission scenario of the
    specification, not code of the repository): it calls [send_next_chunk]
    until a call returns 0 and collects the values returned before that.
    [None] when [fuel] calls were not enough. *)
Fixpoint send_all (fuel : nat) (s : ArraySender) (sock_fd : Z)
  : M (option (list Z * ArraySender)) :=
  match fuel with
  | O => ret_M None
  | S fuel' =>
      (p <- send_next_chunk s sock_fd ;;
       if Z.eqb (fst p) 0 then ret_M (Some ([], snd p))
       else
         r <- send_all fuel' (snd p) sock_fd ;;
         ret_M (match r with
                | Some (ns, s') => Some (fst p :: ns, s')
                | None => None
                end))%srv
  end.

(** [n] calls of [send_next_chunk] in a row: the values they returned. *)
Fixpoint call_times (n : nat) (s : ArraySender) (sock_fd : Z) : M (list Z * ArraySender) :=
  match n with
  | O => ret_M ([], s)
  | S n' =>
      (p <- send_next_chunk s sock_fd ;;
       q <- call_times n' (snd p) sock_fd ;;
       ret_M (fst p :: fst q, snd q))%srv
  end.

(** The local [bytes_in_chunk] of [send_next_chunk]. *)
Definition bytes_in_chunk (s : ArraySender) : Z :=
  Z.min (size_t_wrap (array_length s - curr_loc s)) CHUNK_SIZE.

(** The payload bytes from the cursor on, [bytes_in_chunk] of them. *)
Definition chunk_of (s : ArraySender) : list byte :=
  take (Z.to_nat (bytes_in_chunk s)) (drop (Z.to_nat (curr_loc s)) (array s)).

(** The sizes of the chunks of [r] bytes: full chunks, then the rest. *)
Definition expected_chunks (r : Z) : list Z :=
  repeat CHUNK_SIZE (Z.to_nat (r / CHUNK_SIZE))
  ++ (if Z.eqb (r mod CHUNK_SIZE) 0 then [] else [r mod CHUNK_SIZE]).

(** One call of [send_next_chunk] that returned, on any socket. *)
Definition call_step (a b : ArraySender * World) : Prop :=
  exists sock_fd n, send_next_chunk (fst a) sock_fd (snd a) = Ok (n, fst b) (snd b).

End Sender.

(** The representation invariant of an [ArraySender]: [array] holds
    [array_length] bytes, [array_length] is a [size_t], and the cursor is
    inside the array or one past its end. *)
Definition sender_wf (s : ArraySender) : Prop :=
  Z.of_nat (length (array s)) = array_length s /\
  array_length s <= SIZE_MAX /\
  0 <= curr_loc s <= array_length s.

(** The sender has nothing left to send. *)
Definition exhausted (s : ArraySender) : Prop :=
  size_t_wrap (array_length s - curr_loc s) = 0.

(** The contract of send(2): never more bytes accepted than offered. *)
Definition posix_send (w : World) : Prop :=
  forall k fd buf, ret (net w k fd buf) <= Z.of_nat (length buf).

(** A transport that takes every byte it is offered. *)
Definition accepts_all (w : World) : Prop :=
  forall k fd buf, ret (net w k fd buf) = Z.of_nat (length buf).

(** [ceil(p / c)] for [c > 0]. *)
Definition ceil_div (p c : Z) : Z := (p + c - 1) / c.

(** The world a call left behind, when there is one. *)
Definition world_after {A} (r : Result A) : option World :=
  match r with
  | Ok _ w => Some w
  | Exit _ w => Some w
  | Fault => None
  end.

(** The call came back to its caller. *)
Definition returned {A} (r : Result A) : Prop :=
  match r with
  | Ok _ _ => True
  | _ => False
  end.

(** The sum of a list of byte counts. *)
Definition sum_Z (l : list Z) : Z := fold_right Z.add 0 l.

(** ** ConnectedClient.h and ConnectedClient.cpp (not among the sources) *)

(** Modelled from the spec: the enumeration of the modes of a connection; the
    sources name RECEIVING only. *)
Inductive ClientState := RECEIVING | SENDING | CLOSING.

(** Modelled from the spec: the class [ConnectedClient] of ConnectedClient.h,
    which is missing; the specification's ConnectionState is a handle, a mode
    and an optional active transmitter. *)
Record ConnectedClient := {
  client_fd : Z;
  state : ClientState;
  sender : option ArraySender
}.

(** [ConnectedClient cc(client_fd, RECEIVING)]: no transmitter outside of
    SENDING mode. *)
Definition ConnectedClient_new (fd : Z) (st : ClientState) : ConnectedClient :=
  {| client_fd := fd; state := st; sender := None |}.

(** Modelled from the spec: [ConnectedClient::handle_close] of
    ConnectedClient.cpp, which is missing.  Closing deregisters the handle from
    readiness notification, releases it and discards the transmitter; on a
    handle that is not registered it changes nothing and is not an error.
    The table entry is removed by the caller. *)
Definition handle_close (c : ConnectedClient) (epoll_fd : Z) : M ConnectedClient := fun w =>
  Ok {| client_fd := client_fd c; state := CLOSING; sender := None |}
     (set_nonblocking (fun s => s ∖ {[client_fd c]})
        (set_interest (delete (client_fd c)) w)).

(** ** jukebox-server.cpp *)

Record epoll_event := { events : Z; data_fd : Z }.

(** What one call of epoll_wait gives: its return value and the array it
    filled. *)
Record wait_result := { num_events : Z; ready : list epoll_event }.

Definition O_RDWR : Z := 0x002.
Definition O_NONBLOCK : Z := 0x800.

(** accept(2) on the listening socket, which is non-blocking: the next pending
    connection, or -1 when there is none. *)
Definition sys_accept (server_socket : Z) : M Z := fun w =>
  match pending w with
  | fd :: rest => Ok fd (set_pending (fun _ => rest) w)
  | [] => Ok (-1) w
  end.

(** fcntl(sock, F_GETFL): -1 on a descriptor that cannot be open. *)
Definition sys_fcntl_getfl (sock : Z) : M Z := fun w =>
  if Z.ltb sock 0 then Ok (-1) w
  else Ok (if bool_decide (sock ∈ nonblocking w) then Z.lor O_RDWR O_NONBLOCK else O_RDWR) w.

(** fcntl(sock, F_SETFL, flags). *)
Definition sys_fcntl_setfl (sock flags : Z) : M Z := fun w =>
  if Z.ltb sock 0 then Ok (-1) w
  else if Z.eqb (Z.land flags O_NONBLOCK) 0
       then Ok 0 (set_nonblocking (fun s => s ∖ {[sock]}) w)
       else Ok 0 (set_nonblocking (fun s => {[sock]} ∪ s) w).

(** epoll_ctl(epoll_fd, EPOLL_CTL_ADD, fd, ev): -1 when [fd] is already in the
    interest list. *)
Definition sys_epoll_ctl_add (epoll_fd fd mask : Z) : M Z := fun w =>
  match interest w !! fd with
  | Some _ => Ok (-1) w
  | None => Ok 0 (set_interest (insert fd mask) w)
  end.

Definition accept_connection (server_socket : Z) : M Z :=
  (new_fd <- sys_accept server_socket ;;
   if Z.ltb new_fd 0 then exit EXIT_FAILURE else ret_M new_fd)%srv.

Definition set_non_blocking (sock : Z) : M unit :=
  (socket_flags <- sys_fcntl_getfl sock ;;
   if Z.ltb socket_flags 0 then exit EXIT_FAILURE
   else
     let socket_flags := Z.lor socket_flags O_NONBLOCK in
     result <- sys_fcntl_setfl sock socket_flags ;;
     if Z.ltb result 0 then exit EXIT_FAILURE else ret_M tt)%srv.

Definition setup_new_client (server_socket : Z) (clients : gmap Z ConnectedClient)
    (epoll_fd : Z) : M (gmap Z ConnectedClient) :=
  (client_fd <- accept_connection server_socket ;;
   if bool_decide (is_Some (clients !! client_fd)) then exit EXIT_FAILURE
   else
     set_non_blocking client_fd ;;;
     r <- sys_epoll_ctl_add epoll_fd client_fd (Z.lor EPOLLIN EPOLLRDHUP) ;;
     if Z.eqb r (-1) then exit EXIT_FAILURE
     else
       let cc := ConnectedClient_new client_fd RECEIVING in
       ret_M (<[client_fd := cc]> clients))%srv.

Section Dispatcher.

(** The default constructor of [ConnectedClient] and its method
    [handle_input] are in the missing files; both are parameters. *)
Variable default_client : ConnectedClient.
Variable handle_input : ConnectedClient -> Z -> M ConnectedClient.

(** [clients[fd]] of [std::map]: a missing key is inserted with a
    default-constructed value first. *)
Definition map_index (clients : gmap Z ConnectedClient) (fd : Z)
  : gmap Z ConnectedClient * ConnectedClient :=
  match clients !! fd with
  | Some c => (clients, c)
  | None => (<[fd := default_client]> clients, default_client)
  end.

(** The body of the [for] loop of [event_loop] (lines 304-347) for the event
    [ev]. *)
Definition handle_event (epoll_fd server_socket : Z) (ev : epoll_event)
    (clients : gmap Z ConnectedClient) : M (gmap Z ConnectedClient) :=
  (clients <-
     (if negb (Z.eqb (Z.land (events ev) EPOLLRDHUP) 0) then
        let (clients, c) := map_index clients (data_fd ev) in
        c <- handle_close c epoll_fd ;;
        let clients := <[data_fd ev := c]> clients in
        ret_M (delete (data_fd ev) clients)
      else if negb (Z.eqb (Z.land (events ev) EPOLLIN) 0) then
        if Z.eqb (data_fd ev) server_socket then
          setup_new_client server_socket clients epoll_fd
        else
          let (clients, c) := map_index clients (data_fd ev) in
          c <- handle_input c epoll_fd ;;
          ret_M (<[data_fd ev := c]> clients)
      else ret_M clients) ;;
   if negb (Z.eqb (Z.land (events ev) EPOLLOUT) 0) then
     (* the body of this branch is a comment only *)
     ret_M clients
   else ret_M clients)%srv.

(** The [for] loop over the events of one wake-up. *)
Fixpoint handle_events (epoll_fd server_socket : Z) (evs : list epoll_event)
    (clients : gmap Z ConnectedClient) : M (gmap Z ConnectedClient) :=
  match evs with
  | [] => ret_M clients
  | ev :: evs' =>
      (clients <- handle_event epoll_fd server_socket ev clients ;;
       handle_events epoll_fd server_socket evs' clients)%srv
  end.

(** [event_loop], run over the wake-ups [waits] that epoll_wait delivers, in
    order, from the table [clients]: the table after them.  The loop of the
    source never ends; the function ends where the given wake-ups do. *)
Fixpoint event_loop_from (epoll_fd server_socket : Z) (waits : list wait_result)
    (clients : gmap Z ConnectedClient) : M (gmap Z ConnectedClient) :=
  match waits with
  | [] => ret_M clients
  | wr :: waits' =>
      if Z.ltb (num_events wr) 0 then exit EXIT_FAILURE
      else
        (clients <- handle_events epoll_fd server_socket
                      (take (Z.to_nat (num_events wr)) (ready wr)) clients ;;
         event_loop_from epoll_fd server_socket waits' clients)%srv
  end.

Definition event_loop (epoll_fd server_socket : Z) (waits : list wait_result)
  : M (gmap Z ConnectedClient) :=
  event_loop_from epoll_fd server_socket waits ∅.

End Dispatcher.

(** ** Inputs for the scenarios *)

(** A transport that takes every byte offered. *)
Definition accepting_net : nat -> Z -> list byte -> send_result :=
  fun _ _ buf => {| ret := Z.of_nat (length buf); errno := 0 |}.

(** A transport whose every send fails with the error [e]. *)
Definition failing_net (e : Z) : nat -> Z -> list byte -> send_result :=
  fun _ _ _ => {| ret := -1; errno := e |}.

(** A transport that accepts no byte and reports no error. *)
Definition zero_net : nat -> Z -> list byte -> send_result :=
  fun _ _ _ => {| ret := 0; errno := 0 |}.

(** A transport whose buffer is full at the first send and free afterwards. *)
Definition blocked_once_net : nat -> Z -> list byte -> send_result :=
  fun k _ buf =>
    match k with
    | O => {| ret := -1; errno := EAGAIN |}
    | S _ => {| ret := Z.of_nat (length buf); errno := 0 |}
    end.

(** A transport that takes at most [k] bytes of each send. *)
Definition partial_net (k : Z) : nat -> Z -> list byte -> send_result :=
  fun _ _ buf => {| ret := Z.min k (Z.of_nat (length buf)); errno := 0 |}.

(** A world in which nothing has happened yet. *)
Definition quiet_world (n : nat -> Z -> list byte -> send_result) : World :=
  {| net := n; sent := []; interest := ∅; nonblocking := ∅; pending := [] |}.

Definition abcdefg : list byte := [x61; x62; x63; x64; x65; x66; x67].

Definition payload_10000 : list byte := repeat x00 (Z.to_nat 10000).

(** A sender over [l] with its cursor at [c]. *)
Definition sender_at (l : list byte) (c : Z) : ArraySender :=
  {| array := l; array_length := Z.of_nat (length l); curr_loc := c |}.

(** A client in the middle of a transmission: 2000 of 3000 bytes are left. *)
Definition mid_send_client (fd : Z) : ConnectedClient :=
  {| client_fd := fd; state := SENDING;
     sender := Some (sender_at (repeat x00 3000) 1000) |}.

(** A world in which the clients [fds] are registered with the epoll
    instance. *)
Definition registered_world (fds : list Z) : World :=
  {| net := accepting_net; sent := [];
     interest := list_to_map (map (fun fd => (fd, Z.lor EPOLLIN EPOLLRDHUP)) fds);
     nonblocking := list_to_set fds; pending := [] |}.

(** ** Further notions *)

(** The bytes the transport took from the sends logged in [log], the first of
    which was the [k]-th send of the run: of each chunk offered, as many
    leading bytes as send reported (none when it reported none or failed). *)
Fixpoint accepted_from (n : nat -> Z -> list byte -> send_result) (k : nat)
    (log : list (Z * list byte)) : list byte :=
  match log with
  | [] => []
  | e :: rest =>
      take (Z.to_nat (ret (n k (fst e) (snd e)))) (snd e) ++ accepted_from n (S k) rest
  end.

(** Everything the transport has taken so far. *)
Definition accepted (w : World) : list byte := accepted_from (net w) 0 (sent w).

(** A transport that keeps the contract of send and takes at least one byte
    of every chunk that is not empty. *)
Definition makes_progress (w : World) : Prop :=
  forall k fd buf, buf <> [] -> 0 < ret (net w k fd buf) <= Z.of_nat (length buf).

(** A computation that makes no call of send: whenever it leaves a world
    behind, by returning or by exiting, the log of sends is the one it
    started with. *)
Definition keeps_log {A} (m : M A) : Prop :=
  forall w, match world_after (m w) with
            | Some w' => sent w' = sent w
            | None => True
            end.

(** A transport that breaks the contract of send: it reports [k] bytes taken
    whatever it was offered. *)
Definition lying_net (k : Z) : nat -> Z -> list byte -> send_result :=
  fun _ _ _ => {| ret := k; errno := 0 |}.

(** An input handler that reads nothing and leaves the client as it is. *)
Definition idle_input : ConnectedClient -> Z -> M ConnectedClient :=
  fun c _ => ret_M c.

(** ** jukebox-server.cpp: the catalogue *)

Definition INT_MAX : Z := 2 ^ 31 - 1.

(** File names are byte strings. *)
Definition dot : byte := "."%byte.
Definition mp3_extension : list byte := String.list_byte_of_string ".mp3"%string.
Definition info_extension : list byte := String.list_byte_of_string ".mp3.info"%string.

Fixpoint bytes_eqb (a b : list byte) : bool :=
  match a, b with
  | [], [] => true
  | x :: a', y :: b' => andb (Byte.eqb x y) (bytes_eqb a' b')
  | _, _ => false
  end.

(** The suffix of [l] that starts at its last period, when it has one. *)
Fixpoint last_dot_suffix (l : list byte) : option (list byte) :=
  match l with
  | [] => None
  | c :: r =>
      match last_dot_suffix r with
      | Some s => Some s
      | None => if Byte.eqb c dot then Some (c :: r) else None
      end
  end.

(** [std::filesystem::path::extension] of a path whose file name is [f]: from
    the last period on; a period that is the first character of the name does
    not count, and the names [.] and [..] have no extension. *)
Definition extension (f : list byte) : list byte :=
  if bytes_eqb f [dot] || bytes_eqb f [dot; dot] then []
  else match f with
       | [] => []
       | _ :: r => default [] (last_dot_suffix r)
       end.

(** [std::filesystem::path::replace_extension]: the extension is removed,
    then the replacement is appended, after a period when it is not empty and
    does not start with one. *)
Definition replace_extension (f replacement : list byte) : list byte :=
  take (length f - length (extension f)) f
  ++ match replacement with
     | [] => []
     | c :: _ => if Byte.eqb c dot then replacement else dot :: replacement
     end.

(** What [find_mp3_files] writes to stdout: for a song the line
    [(index) filename], and for its info file the lines [Info:] and the
    contents of the file. *)
Inductive listing_item :=
| song_line (index : Z) (filename : list byte)
| info_lines (contents : list byte).

(** [find_mp3_files(dir)], from the entry of the directory iterator that comes
    next: [entries] are the file names of the entries left, in the order of
    the iterator, [regular_file name] is the contents of the entry [name] of
    the directory when it is a regular file, [num_mp3_files] is the counter
    and [out] what has been written.  [None] when the [int] counter
    overflows. *)
Fixpoint find_mp3_files_from (regular_file : list byte -> option (list byte))
    (entries : list (list byte)) (num_mp3_files : Z) (out : list listing_item)
  : option (Z * list listing_item) :=
  match entries with
  | [] => Some (num_mp3_files, out)
  | filename :: rest =>
      if bytes_eqb (extension filename) mp3_extension then
        let out := out ++ [song_line num_mp3_files filename] in
        if Z.eqb num_mp3_files INT_MAX then None
        else
          let num_mp3_files := num_mp3_files + 1 in
          let info_file_path := replace_extension filename info_extension in
          let out :=
            match regular_file info_file_path with
            | Some contents => out ++ [info_lines contents]
            | None => out
            end in
          find_mp3_files_from regular_file rest num_mp3_files out
      else find_mp3_files_from regular_file rest num_mp3_files out
  end.

Definition find_mp3_files (regular_file : list byte -> option (list byte))
    (entries : list (list byte)) : option (Z * list listing_item) :=
  find_mp3_files_from regular_file entries 0 [].

(** The entry is listed as a song. *)
Definition is_song (filename : list byte) : bool :=
  bytes_eqb (extension filename) mp3_extension.

(** The lines written for the song [filename] listed under [index]. *)
Definition song_block (regular_file : list byte -> option (list byte)) (index : Z)
    (filename : list byte) : list listing_item :=
  song_line index filename
  :: match regular_file (filename ++ String.list_byte_of_string ".info"%string) with
     | Some contents => [info_lines contents]
     | None => []
     end.

(** A directory with two songs, one of them with an info file. *)
Definition sample_entries : list (list byte) :=
  map String.list_byte_of_string
    ["a.mp3"; "notes.txt"; "a.mp3.info"; ".mp3"; "B.MP3"; "c.mp3"]%string.

Definition sample_files (name : list byte) : option (list byte) :=
  if bytes_eqb name (String.list_byte_of_string "a.mp3.info"%string)
  then Some (String.list_byte_of_string "Artist A"%string)
  else if existsb (bytes_eqb name) sample_entries then Some [] else None.

(** * Facts *)

(** ** Memory *)

Lemma mapM_lookup_seq (l : list byte) (n off : nat) :
  (off + n <= length l)%nat ->
  mapM (fun i => l !! i) (seq off n) = Some (take n (drop off l)).
Proof.
  revert off. induction n as [|n IH]; intros off Hle; simpl.
  - reflexivity.
  - destruct (lookup_lt_is_Some_2 l off) as [b Hb]; [lia|].
    rewrite Hb. simpl. rewrite IH by lia. simpl.
    rewrite (drop_S l b off Hb). reflexivity.
Qed.

Lemma mapM_lookup_seq_None (l : list byte) (n off : nat) :
  (0 < n)%nat -> (length l < off + n)%nat ->
  mapM (fun i => l !! i) (seq off n) = None.
Proof.
  revert off. induction n as [|n IH]; intros off Hn Hlt; simpl; [lia|].
  destruct (l !! off) as [b|] eqn:Hb; simpl; [|reflexivity].
  apply lookup_lt_Some in Hb.
  rewrite IH; [reflexivity|lia|lia].
Qed.

(** A copy that stays inside both buffers gives the bytes of the source. *)
Lemma memcpy_in_bounds (dst_size : Z) (src : list byte) (off n : Z) :
  0 <= off -> 0 <= n <= dst_size -> off + n <= Z.of_nat (length src) ->
  memcpy dst_size src off n = Some (take (Z.to_nat n) (drop (Z.to_nat off) src)).
Proof.
  intros Hoff Hn Hsrc. unfold memcpy, memcpy_reads.
  destruct (Z.leb_spec n dst_size); [|lia].
  apply mapM_lookup_seq. lia.
Qed.

(** A copy that leaves the destination or the source is refused. *)
Lemma memcpy_out_of_bounds (dst_size : Z) (src : list byte) (off n : Z) :
  0 <= off -> 0 < n ->
  dst_size < n \/ Z.of_nat (length src) < off + n ->
  memcpy dst_size src off n = None.
Proof.
  intros Hoff Hn Hout. unfold memcpy, memcpy_reads.
  destruct (Z.leb_spec n dst_size); [|reflexivity].
  apply mapM_lookup_seq_None; lia.
Qed.

(** ** The sender *)

Lemma size_t_wrap_small (z : Z) : 0 <= z <= SIZE_MAX -> size_t_wrap z = z.
Proof. unfold size_t_wrap, SIZE_MAX. intros H. apply Z.mod_small. lia. Qed.

Lemma remaining_wf (s : ArraySender) :
  sender_wf s -> size_t_wrap (array_length s - curr_loc s) = array_length s - curr_loc s.
Proof. intros (_ & ? & ?). apply size_t_wrap_small. lia. Qed.

Section SenderFacts.

Variable CHUNK_SIZE : Z.
Hypothesis CHUNK_SIZE_range : 0 < CHUNK_SIZE <= SSIZE_MAX.

Lemma bytes_in_chunk_wf (s : ArraySender) :
  sender_wf s ->
  bytes_in_chunk CHUNK_SIZE s = Z.min (array_length s - curr_loc s) CHUNK_SIZE.
Proof. intros Hwf. unfold bytes_in_chunk. now rewrite remaining_wf. Qed.

Lemma length_chunk_of (s : ArraySender) :
  sender_wf s ->
  Z.of_nat (length (chunk_of CHUNK_SIZE s)) = bytes_in_chunk CHUNK_SIZE s.
Proof.
  intros Hwf. unfold chunk_of. rewrite (bytes_in_chunk_wf s Hwf).
  destruct Hwf as (Hlen & _ & Hcur).
  rewrite length_take, length_drop. lia.
Qed.

(** What a call does on a well-formed sender: the copy never leaves the
    buffers, and the chunk offered is [chunk_of]. *)
Lemma send_next_chunk_wf (s : ArraySender) (sock_fd : Z) (w : World) :
  sender_wf s ->
  send_next_chunk CHUNK_SIZE s sock_fd w =
    if Z.ltb 0 (bytes_in_chunk CHUNK_SIZE s) then
      let r := net w (length (sent w)) sock_fd (chunk_of CHUNK_SIZE s) in
      let w' := set_sent (fun l => l ++ [(sock_fd, chunk_of CHUNK_SIZE s)]) w in
      if Z.ltb 0 (ret r) then
        Ok (ret r, set_curr_loc (size_t_wrap (curr_loc s + ret r)) s) w'
      else if andb (Z.ltb (ret r) 0) (Z.eqb (errno r) EAGAIN) then Ok (-1, s) w'
      else Exit EXIT_FAILURE w'
    else Ok (0, s) w.
Proof.
  intros Hwf. unfold send_next_chunk. fold (bytes_in_chunk CHUNK_SIZE s).
  destruct (Z.ltb_spec 0 (bytes_in_chunk CHUNK_SIZE s)) as [Hpos|Hzero]; [|reflexivity].
  pose proof (bytes_in_chunk_wf s Hwf) as Hb.
  destruct Hwf as (Hlen & Hmax & Hcur).
  rewrite memcpy_in_bounds by lia.
  fold (chunk_of CHUNK_SIZE s).
  unfold bind_M, sys_send, ret_M, exit. simpl.
  destruct (Z.ltb 0 (ret _)); [reflexivity|].
  destruct (andb _ _); reflexivity.
Qed.

Lemma set_curr_loc_wf (s : ArraySender) (v : Z) :
  sender_wf s -> 0 <= v <= array_length s -> sender_wf (set_curr_loc v s).
Proof. intros (Hlen & Hmax & _) Hv. repeat split; simpl; lia. Qed.

(** After [k] accepted bytes the cursor is [k] further, without wrap-around. *)
Lemma advance_no_wrap (s : ArraySender) (k : Z) :
  sender_wf s -> 0 <= k <= bytes_in_chunk CHUNK_SIZE s ->
  size_t_wrap (curr_loc s + k) = curr_loc s + k /\
  curr_loc s + k <= array_length s.
Proof.
  intros Hwf Hk. rewrite (bytes_in_chunk_wf s Hwf) in Hk.
  destruct Hwf as (_ & Hmax & Hcur).
  split; [apply size_t_wrap_small|]; lia.
Qed.

(** The accepted part of a chunk, then the payload from the new cursor on, is
    the payload from the old cursor on. *)
Lemma accepted_then_rest (s : ArraySender) (k : Z) :
  sender_wf s -> 0 <= k <= bytes_in_chunk CHUNK_SIZE s ->
  take (Z.to_nat k) (chunk_of CHUNK_SIZE s)
    ++ drop (Z.to_nat (curr_loc s + k)) (array s)
  = drop (Z.to_nat (curr_loc s)) (array s).
Proof.
  intros Hwf Hk. unfold chunk_of.
  rewrite take_take, Nat.min_l by lia.
  destruct Hwf as (_ & _ & Hcur).
  replace (Z.to_nat (curr_loc s + k)) with (Z.to_nat (curr_loc s) + Z.to_nat k)%nat by lia.
  rewrite <- drop_drop. apply take_drop.
Qed.

(** C3: when the transport accepts [K > 0] bytes of the chunk offered
    (possibly fewer than offered), [send_next_chunk] returns [K] and advances
    the cursor by exactly [K]; the accepted bytes followed by the payload
    from the new cursor on are the payload from the old cursor on (no byte
    sent twice, none skipped), and the next call offers the bytes that start
    at the old cursor plus [K]. *)
Theorem accepted_bytes_advance_cursor (s : ArraySender) (sock_fd : Z) (w : World) (K : Z) :
  sender_wf s ->
  ret (net w (length (sent w)) sock_fd (chunk_of CHUNK_SIZE s)) = K ->
  0 < K <= bytes_in_chunk CHUNK_SIZE s ->
  exists s' w',
    send_next_chunk CHUNK_SIZE s sock_fd w = Ok (K, s') w' /\
    curr_loc s' = curr_loc s + K /\
    array s' = array s /\ array_length s' = array_length s /\
    sent w' = sent w ++ [(sock_fd, chunk_of CHUNK_SIZE s)] /\
    take (Z.to_nat K) (chunk_of CHUNK_SIZE s) ++ drop (Z.to_nat (curr_loc s')) (array s')
      = drop (Z.to_nat (curr_loc s)) (array s) /\
    chunk_of CHUNK_SIZE s'
      = take (Z.to_nat (Z.min (array_length s - (curr_loc s + K)) CHUNK_SIZE))
             (drop (Z.to_nat (curr_loc s + K)) (array s)) /\
    (forall fd2, 0 < bytes_in_chunk CHUNK_SIZE s' ->
       world_after (send_next_chunk CHUNK_SIZE s' fd2 w')
       = Some (set_sent (fun l => l ++ [(fd2, chunk_of CHUNK_SIZE s')]) w')).
Proof.
  intros Hwf HK Hrange.
  destruct (advance_no_wrap s K Hwf) as [Hnw Hle]; [lia|].
  assert (Hwf' : sender_wf (set_curr_loc (curr_loc s + K) s)).
  { apply set_curr_loc_wf; [assumption|]. destruct Hwf as (_ & _ & ?). lia. }
  exists (set_curr_loc (curr_loc s + K) s),
         (set_sent (fun l => l ++ [(sock_fd, chunk_of CHUNK_SIZE s)]) w).
  split.
  { rewrite send_next_chunk_wf by assumption.
    destruct (Z.ltb_spec 0 (bytes_in_chunk CHUNK_SIZE s)); [|lia].
    cbv zeta. rewrite HK.
    destruct (Z.ltb_spec 0 K); [|lia]. now rewrite Hnw. }
  split; [reflexivity|]. split; [reflexivity|]. split; [reflexivity|].
  split; [reflexivity|].
  split; [exact (accepted_then_rest s K Hwf ltac:(lia))|].
  split.
  { unfold chunk_of. rewrite (bytes_in_chunk_wf _ Hwf'). reflexivity. }
  intros fd2 Hpos.
  rewrite send_next_chunk_wf by assumption.
  destruct (Z.ltb_spec 0 (bytes_in_chunk CHUNK_SIZE (set_curr_loc (curr_loc s + K) s))); [|lia].
  cbv zeta.
  destruct (Z.ltb 0 (ret _)); [reflexivity|].
  destruct (andb _ _); reflexivity.
Qed.


(** C6 *)
(** C6: on an exhausted sender (cursor = length) a call of
    [send_next_chunk] returns 0, makes no call of send (the world is the
    same) and leaves the sender as it was; so do [n] calls in a row. *)
Theorem exhausted_calls_are_idempotent (s : ArraySender) (sock_fd : Z) (w : World) (n : nat) :
  curr_loc s = array_length s ->
  send_next_chunk CHUNK_SIZE s sock_fd w = Ok (0, s) w /\
  call_times CHUNK_SIZE n s sock_fd w = Ok (repeat 0 n, s) w.
Proof using Type.
  clear CHUNK_SIZE_range. intros Hend.
  assert (Hone : forall w0, send_next_chunk CHUNK_SIZE s sock_fd w0 = Ok (0, s) w0).
  { intros w0. unfold send_next_chunk. rewrite Hend, Z.sub_diag.
    change (size_t_wrap 0) with 0.
    destruct (Z.ltb_spec 0 (Z.min 0 CHUNK_SIZE)); [lia|reflexivity]. }
  split; [apply Hone|].
  induction n as [|n IH]; [reflexivity|].
  simpl. unfold bind_M. rewrite Hone. simpl. rewrite IH. reflexivity.
Qed.

(** C10 *)
(** C10: under the invariant, a call copies
    [min (length - cursor) CHUNK_SIZE] bytes: at most [CHUNK_SIZE] are written
    to the chunk buffer, every payload index read lies in
    [[cursor, cursor + bytes_in_chunk)] and inside the array, so the checked
    copy succeeds and the call never faults. *)
Theorem chunk_copy_in_bounds (s : ArraySender) (sock_fd : Z) (w : World) :
  sender_wf s ->
  bytes_in_chunk CHUNK_SIZE s = Z.min (array_length s - curr_loc s) CHUNK_SIZE /\
  0 <= bytes_in_chunk CHUNK_SIZE s <= CHUNK_SIZE /\
  curr_loc s + bytes_in_chunk CHUNK_SIZE s <= array_length s /\
  (forall i : nat, i ∈ memcpy_reads (curr_loc s) (bytes_in_chunk CHUNK_SIZE s) ->
     curr_loc s <= Z.of_nat i < curr_loc s + bytes_in_chunk CHUNK_SIZE s /\
     is_Some (array s !! i)) /\
  memcpy CHUNK_SIZE (array s) (curr_loc s) (bytes_in_chunk CHUNK_SIZE s)
    = Some (chunk_of CHUNK_SIZE s) /\
  Z.of_nat (length (chunk_of CHUNK_SIZE s)) = bytes_in_chunk CHUNK_SIZE s /\
  send_next_chunk CHUNK_SIZE s sock_fd w <> Fault.
Proof.
  intros Hwf.
  pose proof (bytes_in_chunk_wf s Hwf) as Hb.
  pose proof (length_chunk_of s Hwf) as Hl.
  pose proof (send_next_chunk_wf s sock_fd w Hwf) as Hs.
  destruct Hwf as (Hlen & Hmax & Hcur).
  split; [exact Hb|]. split; [lia|]. split; [lia|].
  split.
  { intros i Hi. unfold memcpy_reads in Hi. apply elem_of_seq in Hi.
    split; [lia|]. apply lookup_lt_is_Some_2. lia. }
  split; [apply memcpy_in_bounds; lia|].
  split; [exact Hl|].
  rewrite Hs. cbv zeta.
  destruct (Z.ltb 0 (bytes_in_chunk _ _)); [|discriminate].
  destruct (Z.ltb 0 (ret _)); [discriminate|].
  destruct (andb _ _); discriminate.
Qed.

(** C1 amended *)
(** C1, as amended: with bytes left to send, when send fails with an
    unexpected result (a value that is not positive, other than a negative
    value with [errno = EAGAIN]), [send_next_chunk] does not return: after
    that one send the process exits with status [EXIT_FAILURE]. *)
Theorem unexpected_send_error_exits (s : ArraySender) (sock_fd : Z) (w : World) :
  sender_wf s ->
  0 < array_length s - curr_loc s ->
  ret (net w (length (sent w)) sock_fd (chunk_of CHUNK_SIZE s)) <= 0 ->
  ~ (ret (net w (length (sent w)) sock_fd (chunk_of CHUNK_SIZE s)) < 0 /\
     errno (net w (length (sent w)) sock_fd (chunk_of CHUNK_SIZE s)) = EAGAIN) ->
  send_next_chunk CHUNK_SIZE s sock_fd w
  = Exit EXIT_FAILURE (set_sent (fun l => l ++ [(sock_fd, chunk_of CHUNK_SIZE s)]) w).
Proof.
  intros Hwf Hrem Hret Hnot.
  rewrite send_next_chunk_wf by assumption.
  rewrite (bytes_in_chunk_wf s Hwf).
  destruct (Z.ltb_spec 0 (Z.min (array_length s - curr_loc s) CHUNK_SIZE)); [|lia].
  cbv zeta.
  destruct (Z.ltb_spec 0 (ret (net w (length (sent w)) sock_fd (chunk_of CHUNK_SIZE s)))); [lia|].
  destruct (Z.ltb_spec (ret (net w (length (sent w)) sock_fd (chunk_of CHUNK_SIZE s))) 0);
    [|reflexivity].
  destruct (Z.eqb_spec (errno (net w (length (sent w)) sock_fd (chunk_of CHUNK_SIZE s))) EAGAIN);
    [|reflexivity].
  exfalso. apply Hnot. split; assumption.
Qed.

(** C2 amended *)
(** C2, as amended: with bytes left to send, when send reports a full
    outbound buffer (a negative value with [errno = EAGAIN]),
    [send_next_chunk] returns -1 and leaves the sender as it was; a later
    call that succeeds offers the same chunk, from the same offset, and
    advances the cursor from there. *)
Theorem full_buffer_keeps_cursor (s : ArraySender) (sock_fd fd2 : Z) (w : World) (K : Z) :
  sender_wf s ->
  0 < array_length s - curr_loc s ->
  ret (net w (length (sent w)) sock_fd (chunk_of CHUNK_SIZE s)) < 0 ->
  errno (net w (length (sent w)) sock_fd (chunk_of CHUNK_SIZE s)) = EAGAIN ->
  ret (net w (S (length (sent w))) fd2 (chunk_of CHUNK_SIZE s)) = K ->
  0 < K <= bytes_in_chunk CHUNK_SIZE s ->
  exists w' w'',
    send_next_chunk CHUNK_SIZE s sock_fd w = Ok (-1, s) w' /\
    sent w' = sent w ++ [(sock_fd, chunk_of CHUNK_SIZE s)] /\
    send_next_chunk CHUNK_SIZE s fd2 w'
      = Ok (K, set_curr_loc (curr_loc s + K) s) w'' /\
    sent w'' = sent w' ++ [(fd2, chunk_of CHUNK_SIZE s)].
Proof.
  intros Hwf Hrem Hret Herr HK Hrange.
  exists (set_sent (fun l => l ++ [(sock_fd, chunk_of CHUNK_SIZE s)]) w).
  eexists.
  split.
  { rewrite send_next_chunk_wf by assumption.
    rewrite (bytes_in_chunk_wf s Hwf).
    destruct (Z.ltb_spec 0 (Z.min (array_length s - curr_loc s) CHUNK_SIZE)); [|lia].
    cbv zeta.
    destruct (Z.ltb_spec 0 (ret (net w (length (sent w)) sock_fd (chunk_of CHUNK_SIZE s)))); [lia|].
    destruct (Z.ltb_spec (ret (net w (length (sent w)) sock_fd (chunk_of CHUNK_SIZE s))) 0); [|lia].
    rewrite Herr. reflexivity. }
  split; [reflexivity|].
  destruct (advance_no_wrap s K Hwf) as [Hnw _]; [lia|].
  split.
  { rewrite send_next_chunk_wf by assumption.
    destruct (Z.ltb_spec 0 (bytes_in_chunk CHUNK_SIZE s)); [|lia].
    cbv zeta. simpl sent. simpl net. rewrite length_app. simpl length.
    rewrite Nat.add_1_r, HK.
    destruct (Z.ltb_spec 0 K); [|lia]. rewrite Hnw. reflexivity. }
  reflexivity.
Qed.


(** *** The constructor and the invariant *)

Lemma ArraySender_new_ok (array_to_send : list byte) (len : Z) :
  0 <= len <= Z.of_nat (length array_to_send) ->
  ArraySender_new array_to_send len
  = Some {| array := take (Z.to_nat len) array_to_send; array_length := len; curr_loc := 0 |}.
Proof.
  intros Hlen. unfold ArraySender_new, memcpy_reads.
  rewrite mapM_lookup_seq by (simpl; lia). reflexivity.
Qed.

Lemma ArraySender_new_wf (array_to_send : list byte) (len : Z) (s : ArraySender) :
  0 <= len <= SIZE_MAX ->
  ArraySender_new array_to_send len = Some s ->
  sender_wf s /\ curr_loc s = 0 /\ array_length s = len /\
  array s = take (Z.to_nat len) array_to_send.
Proof.
  intros Hlen Hnew.
  assert (Hfit : len <= Z.of_nat (length array_to_send)).
  { destruct (Z.le_gt_cases len (Z.of_nat (length array_to_send))) as [|Hgt]; [assumption|].
    unfold ArraySender_new, memcpy_reads in Hnew.
    rewrite mapM_lookup_seq_None in Hnew by (simpl; lia). discriminate. }
  rewrite ArraySender_new_ok in Hnew by lia.
  injection Hnew as <-. unfold sender_wf. simpl.
  rewrite length_take. repeat split; lia.
Qed.

Lemma call_step_preserves (a b : ArraySender * World) :
  call_step CHUNK_SIZE a b ->
  sender_wf (fst a) -> posix_send (snd a) ->
  sender_wf (fst b) /\ posix_send (snd b) /\
  curr_loc (fst a) <= curr_loc (fst b) /\
  array_length (fst b) = array_length (fst a).
Proof.
  destruct a as [s w], b as [s' w']. simpl.
  intros (fd & n & Hcall) Hwf Hposix. simpl in Hcall.
  rewrite send_next_chunk_wf in Hcall by assumption.
  destruct (Z.ltb 0 (bytes_in_chunk CHUNK_SIZE s)).
  - cbv zeta in Hcall.
    pose proof (Hposix (length (sent w)) fd (chunk_of CHUNK_SIZE s)) as Hle.
    rewrite length_chunk_of in Hle by assumption.
    destruct (Z.ltb_spec 0 (ret (net w (length (sent w)) fd (chunk_of CHUNK_SIZE s)))).
    + injection Hcall as _ <- <-.
      destruct (advance_no_wrap s _ Hwf (conj (Z.lt_le_incl _ _ H) Hle)) as [Hnw Hin].
      rewrite Hnw. split.
      { apply set_curr_loc_wf; [assumption|]. destruct Hwf as (_ & _ & ?). lia. }
      split; [exact Hposix|]. simpl. split; [lia|reflexivity].
    + destruct (andb _ _); [|discriminate].
      injection Hcall as _ <- <-.
      split; [assumption|]. split; [exact Hposix|]. split; [lia|reflexivity].
  - injection Hcall as _ <- <-.
    split; [assumption|]. split; [assumption|]. split; [lia|reflexivity].
Qed.

Lemma calls_preserve (a b : ArraySender * World) :
  rtc (call_step CHUNK_SIZE) a b ->
  sender_wf (fst a) -> posix_send (snd a) ->
  sender_wf (fst b) /\ posix_send (snd b) /\
  curr_loc (fst a) <= curr_loc (fst b) /\
  array_length (fst b) = array_length (fst a).
Proof.
  induction 1 as [a|a b c Hab Hbc IH]; intros Hwf Hposix.
  - split; [assumption|]. split; [assumption|]. split; [lia|reflexivity].
  - destruct (call_step_preserves a b Hab Hwf Hposix) as (Hwfb & Hpb & Hle & Hlen).
    destruct (IH Hwfb Hpb) as (Hwfc & Hpc & Hle' & Hlen').
    split; [assumption|]. split; [assumption|]. split; [lia|congruence].
Qed.

Lemma exhausted_iff (s : ArraySender) :
  sender_wf s -> (exhausted s <-> curr_loc s = array_length s).
Proof.
  intros Hwf. unfold exhausted. rewrite remaining_wf by assumption. lia.
Qed.

Lemma returns_zero_iff (s : ArraySender) (sock_fd : Z) (w : World) :
  sender_wf s ->
  (send_next_chunk CHUNK_SIZE s sock_fd w = Ok (0, s) w <-> curr_loc s = array_length s).
Proof.
  intros Hwf. rewrite send_next_chunk_wf by assumption.
  rewrite (bytes_in_chunk_wf s Hwf).
  destruct (Z.ltb_spec 0 (Z.min (array_length s - curr_loc s) CHUNK_SIZE)) as [Hpos|Hz].
  - cbv zeta. split; [|lia].
    destruct (Z.ltb_spec 0 (ret (net w (length (sent w)) sock_fd (chunk_of CHUNK_SIZE s)))).
    + intros Heq. injection Heq as Heq _. lia.
    + destruct (andb _ _); discriminate.
  - destruct Hwf as (_ & _ & ?). split; [lia|reflexivity].
Qed.

(** C7: the constructor sets the cursor to 0; every sender reached from a
    constructed one by calls of [send_next_chunk], over a transport that
    keeps the contract of send, satisfies [0 <= cursor <= length]; the cursor
    never decreases from one reached state to a later one; and the sender is
    exhausted (a call returns 0 and sends nothing) exactly when
    cursor = length. *)
Theorem cursor_invariant (array_to_send : list byte) (len : Z)
    (s0 s s2 : ArraySender) (w0 w w2 : World) :
  0 <= len <= SIZE_MAX ->
  ArraySender_new array_to_send len = Some s0 ->
  posix_send w0 ->
  rtc (call_step CHUNK_SIZE) (s0, w0) (s, w) ->
  rtc (call_step CHUNK_SIZE) (s, w) (s2, w2) ->
  curr_loc s0 = 0 /\ array_length s0 = len /\
  array_length s = len /\ 0 <= curr_loc s <= array_length s /\
  array_length s2 = len /\ 0 <= curr_loc s2 <= array_length s2 /\
  curr_loc s <= curr_loc s2 /\
  (exhausted s <-> curr_loc s = array_length s) /\
  (forall fd, send_next_chunk CHUNK_SIZE s fd w = Ok (0, s) w <-> curr_loc s = array_length s).
Proof.
  intros Hlen Hnew Hposix Hreach Hlater.
  destruct (ArraySender_new_wf _ _ _ Hlen Hnew) as (Hwf0 & Hcur0 & Hlen0 & _).
  destruct (calls_preserve _ _ Hreach Hwf0 Hposix) as (Hwf & Hp & _ & Hl). simpl in *.
  destruct (calls_preserve _ _ Hlater Hwf Hp) as (Hwf2 & _ & Hmono & Hl2). simpl in *.
  split; [assumption|]. split; [assumption|].
  split; [congruence|]. split; [apply Hwf|].
  split; [congruence|]. split; [apply Hwf2|].
  split; [assumption|].
  split; [apply exhausted_iff; assumption|].
  intros fd. apply returns_zero_iff; assumption.
Qed.


(** *** Draining a sender through a transport that takes everything *)

Lemma expected_chunks_zero : expected_chunks CHUNK_SIZE 0 = [].
Proof.
  unfold expected_chunks. rewrite Z.div_0_l, Z.mod_0_l by lia. reflexivity.
Qed.

Lemma expected_chunks_last (r : Z) :
  0 < r < CHUNK_SIZE -> expected_chunks CHUNK_SIZE r = [r].
Proof.
  intros Hr. unfold expected_chunks.
  rewrite Z.div_small, Z.mod_small by lia. simpl.
  destruct (Z.eqb_spec r 0); [lia|reflexivity].
Qed.

Lemma expected_chunks_full (r : Z) :
  CHUNK_SIZE <= r ->
  expected_chunks CHUNK_SIZE r = CHUNK_SIZE :: expected_chunks CHUNK_SIZE (r - CHUNK_SIZE).
Proof.
  intros Hr. unfold expected_chunks.
  assert (Hq : r / CHUNK_SIZE = (r - CHUNK_SIZE) / CHUNK_SIZE + 1).
  { replace r with (r - CHUNK_SIZE + 1 * CHUNK_SIZE) at 1 by lia.
    apply Z.div_add. lia. }
  assert (Hm : r mod CHUNK_SIZE = (r - CHUNK_SIZE) mod CHUNK_SIZE).
  { replace r with (r - CHUNK_SIZE + 1 * CHUNK_SIZE) at 1 by lia.
    apply Z_mod_plus_full. }
  rewrite Hq, Hm.
  assert (0 <= (r - CHUNK_SIZE) / CHUNK_SIZE) by (apply Z.div_pos; lia).
  replace (Z.to_nat ((r - CHUNK_SIZE) / CHUNK_SIZE + 1))
    with (S (Z.to_nat ((r - CHUNK_SIZE) / CHUNK_SIZE))) by lia.
  reflexivity.
Qed.

Lemma sum_Z_app (l k : list Z) : sum_Z (l ++ k) = sum_Z l + sum_Z k.
Proof. induction l as [|x l IH]; simpl; [reflexivity|]. unfold sum_Z in *. simpl. lia. Qed.

Lemma sum_Z_repeat (c : Z) (n : nat) : sum_Z (repeat c n) = Z.of_nat n * c.
Proof. induction n as [|n IH]; [reflexivity|]. unfold sum_Z in *. simpl repeat. simpl fold_right. lia. Qed.

Lemma sum_expected_chunks (r : Z) : 0 <= r -> sum_Z (expected_chunks CHUNK_SIZE r) = r.
Proof.
  intros Hr. unfold expected_chunks. rewrite sum_Z_app, sum_Z_repeat.
  assert (0 <= r / CHUNK_SIZE) by (apply Z.div_pos; lia).
  pose proof (Z.div_mod r CHUNK_SIZE ltac:(lia)) as Hdm.
  destruct (Z.eqb_spec (r mod CHUNK_SIZE) 0); unfold sum_Z; simpl; lia.
Qed.

Lemma length_expected_chunks (r : Z) :
  0 <= r -> Z.of_nat (length (expected_chunks CHUNK_SIZE r)) = ceil_div r CHUNK_SIZE.
Proof.
  intros Hr. unfold expected_chunks, ceil_div.
  rewrite length_app, repeat_length.
  assert (0 <= r / CHUNK_SIZE) by (apply Z.div_pos; lia).
  pose proof (Z.div_mod r CHUNK_SIZE ltac:(lia)) as Hdm.
  pose proof (Z.mod_pos_bound r CHUNK_SIZE ltac:(lia)) as Hm.
  destruct (Z.eqb_spec (r mod CHUNK_SIZE) 0) as [Hz|Hnz]; simpl length;
    rewrite Nat2Z.inj_add, Z2Nat.id by lia.
  - apply Z.div_unique_pos with (r := CHUNK_SIZE - 1); lia.
  - apply Z.div_unique_pos with (r := r mod CHUNK_SIZE - 1); lia.
Qed.

Lemma expected_chunks_positive (r : Z) :
  0 <= r -> Forall (fun n => 0 < n <= CHUNK_SIZE) (expected_chunks CHUNK_SIZE r).
Proof.
  intros Hr. unfold expected_chunks. apply Forall_app. split.
  - apply Forall_forall. intros x Hx. apply list_elem_of_In, repeat_spec in Hx. lia.
  - pose proof (Z.mod_pos_bound r CHUNK_SIZE ltac:(lia)) as Hm.
    destruct (Z.eqb_spec (r mod CHUNK_SIZE) 0); [constructor|].
    repeat constructor; lia.
Qed.

(** A call through a transport that takes everything, with bytes left. *)
Lemma send_next_chunk_accepts_all (s : ArraySender) (sock_fd : Z) (w : World) :
  sender_wf s -> accepts_all w -> 0 < array_length s - curr_loc s ->
  send_next_chunk CHUNK_SIZE s sock_fd w
  = Ok (bytes_in_chunk CHUNK_SIZE s,
        set_curr_loc (curr_loc s + bytes_in_chunk CHUNK_SIZE s) s)
       (set_sent (fun l => l ++ [(sock_fd, chunk_of CHUNK_SIZE s)]) w).
Proof.
  intros Hwf Hall Hrem.
  rewrite send_next_chunk_wf by assumption. cbv zeta.
  rewrite Hall, length_chunk_of by assumption.
  pose proof (bytes_in_chunk_wf s Hwf) as Hb.
  destruct (Z.ltb_spec 0 (bytes_in_chunk CHUNK_SIZE s)); [|lia].
  destruct (advance_no_wrap s (bytes_in_chunk CHUNK_SIZE s) Hwf) as [Hnw _]; [lia|].
  now rewrite Hnw.
Qed.

Lemma send_all_accepts_all (fuel : nat) :
  forall (s : ArraySender) (sock_fd : Z) (w : World),
  sender_wf s -> accepts_all w ->
  ceil_div (array_length s - curr_loc s) CHUNK_SIZE < Z.of_nat fuel ->
  exists s' w' cs,
    send_all CHUNK_SIZE fuel s sock_fd w
    = Ok (Some (expected_chunks CHUNK_SIZE (array_length s - curr_loc s), s')) w' /\
    curr_loc s' = array_length s /\ array_length s' = array_length s /\
    array s' = array s /\
    sent w' = sent w ++ map (pair sock_fd) cs /\
    map (fun c => Z.of_nat (length c)) cs
      = expected_chunks CHUNK_SIZE (array_length s - curr_loc s) /\
    concat cs = drop (Z.to_nat (curr_loc s)) (array s).
Proof.
  induction fuel as [|fuel IH]; intros s fd w Hwf Hall Hfuel.
  - assert (0 <= array_length s - curr_loc s) by (destruct Hwf as (_ & _ & ?); lia).
    rewrite <- length_expected_chunks in Hfuel by assumption. lia.
  - destruct (Z.eq_dec (curr_loc s) (array_length s)) as [Hend|Hmore].
    + exists s, w, []. simpl. unfold bind_M.
      rewrite (proj2 (returns_zero_iff s fd w Hwf) Hend). simpl.
      rewrite Hend, Z.sub_diag, expected_chunks_zero.
      destruct Hwf as (Hlen & _ & _).
      rewrite app_nil_r, drop_ge by lia. repeat split; reflexivity.
    + pose proof Hwf as (Hlen & Hmax & Hcur).
      assert (Hrem : 0 < array_length s - curr_loc s) by lia.
      pose proof (bytes_in_chunk_wf s Hwf) as Hb.
      set (n := bytes_in_chunk CHUNK_SIZE s) in *.
      set (s1 := set_curr_loc (curr_loc s + n) s).
      assert (Hwf1 : sender_wf s1) by (apply set_curr_loc_wf; [assumption|lia]).
      assert (Hexp : expected_chunks CHUNK_SIZE (array_length s - curr_loc s)
                     = n :: expected_chunks CHUNK_SIZE (array_length s1 - curr_loc s1)
                     /\ ceil_div (array_length s1 - curr_loc s1) CHUNK_SIZE < Z.of_nat fuel).
      { simpl. rewrite <- length_expected_chunks by lia.
        rewrite <- length_expected_chunks in Hfuel by lia.
        destruct (Z.le_gt_cases CHUNK_SIZE (array_length s - curr_loc s)) as [Hfull|Hlast].
        - rewrite expected_chunks_full in Hfuel |- * by assumption.
          simpl length in Hfuel.
          replace n with CHUNK_SIZE by lia.
          replace (array_length s - (curr_loc s + CHUNK_SIZE))
            with (array_length s - curr_loc s - CHUNK_SIZE) by lia.
          split; [reflexivity|lia].
        - rewrite expected_chunks_last in Hfuel |- * by lia.
          simpl length in Hfuel.
          replace (array_length s - (curr_loc s + n)) with 0 by lia.
          rewrite expected_chunks_zero. simpl length.
          split; [f_equal; lia|lia]. }
      destruct Hexp as [Hexp Hfuel1].
      destruct (IH s1 fd (set_sent (fun l => l ++ [(fd, chunk_of CHUNK_SIZE s)]) w)
                  Hwf1 Hall Hfuel1)
        as (s' & w' & cs & Hrun & Hc & Hl & Ha & Hs & Hm & Hcat).
      exists s', w', (chunk_of CHUNK_SIZE s :: cs).
      split.
      { simpl. unfold bind_M.
        rewrite send_next_chunk_accepts_all by assumption. fold n. fold s1. simpl.
        destruct (Z.eqb_spec n 0); [lia|].
        rewrite Hrun. unfold ret_M. rewrite Hexp. reflexivity. }
      split; [exact Hc|]. split; [exact Hl|]. split; [exact Ha|].
      split; [rewrite Hs; simpl; now rewrite <- app_assoc|].
      split.
      { simpl map. rewrite Hm, Hexp, length_chunk_of by assumption. reflexivity. }
      simpl concat. rewrite Hcat. simpl.
      pose proof (accepted_then_rest s n Hwf ltac:(lia)) as Hrest.
      rewrite firstn_all2 in Hrest; [exact Hrest|].
      pose proof (length_chunk_of s Hwf). fold n in H. lia.
Qed.

(** C5: a call offers exactly [min remaining CHUNK_SIZE] bytes (nothing when
    that is 0); through a transport that accepts every offered byte, draining
    a sender with [P] bytes left takes [ceil (P / CHUNK_SIZE)] chunks, none
    empty, whose returned sizes sum to [P], and ends with the cursor at the
    length; the chunks offered are the rest of the payload, in order. *)
Theorem drains_in_ceil_chunks (s : ArraySender) (sock_fd : Z) (w : World) :
  sender_wf s -> accepts_all w ->
  (forall fd1 w1,
     world_after (send_next_chunk CHUNK_SIZE s fd1 w1)
     = Some (if Z.ltb 0 (Z.min (array_length s - curr_loc s) CHUNK_SIZE)
             then set_sent (fun l => l ++ [(fd1, chunk_of CHUNK_SIZE s)]) w1
             else w1)) /\
  Z.of_nat (length (chunk_of CHUNK_SIZE s))
    = Z.min (array_length s - curr_loc s) CHUNK_SIZE /\
  exists ns s' w' cs,
    send_all CHUNK_SIZE
      (S (Z.to_nat (ceil_div (array_length s - curr_loc s) CHUNK_SIZE))) s sock_fd w
    = Ok (Some (ns, s')) w' /\
    ns = expected_chunks CHUNK_SIZE (array_length s - curr_loc s) /\
    Z.of_nat (length ns) = ceil_div (array_length s - curr_loc s) CHUNK_SIZE /\
    Forall (fun n => 0 < n <= CHUNK_SIZE) ns /\
    sum_Z ns = array_length s - curr_loc s /\
    curr_loc s' = array_length s' /\ array_length s' = array_length s /\
    sent w' = sent w ++ map (pair sock_fd) cs /\
    map (fun c => Z.of_nat (length c)) cs = ns /\
    concat cs = drop (Z.to_nat (curr_loc s)) (array s).
Proof.
  intros Hwf Hall.
  assert (Hrem : 0 <= array_length s - curr_loc s) by (destruct Hwf as (_ & _ & ?); lia).
  split.
  { intros fd1 w1. rewrite send_next_chunk_wf by assumption.
    rewrite (bytes_in_chunk_wf s Hwf). cbv zeta.
    destruct (Z.ltb 0 (Z.min _ _)); [|reflexivity].
    destruct (Z.ltb 0 (ret _)); [reflexivity|].
    destruct (andb _ _); reflexivity. }
  split.
  { rewrite length_chunk_of by assumption. now apply bytes_in_chunk_wf. }
  destruct (send_all_accepts_all
              (S (Z.to_nat (ceil_div (array_length s - curr_loc s) CHUNK_SIZE)))
              s sock_fd w Hwf Hall)
    as (s' & w' & cs & Hrun & Hc & Hl & Ha & Hs & Hm & Hcat).
  { rewrite <- length_expected_chunks by assumption. lia. }
  exists (expected_chunks CHUNK_SIZE (array_length s - curr_loc s)), s', w', cs.
  split; [exact Hrun|]. split; [reflexivity|].
  split; [now apply length_expected_chunks|].
  split; [now apply expected_chunks_positive|].
  split; [now apply sum_expected_chunks|].
  split; [congruence|]. split; [exact Hl|].
  split; [exact Hs|]. split; [exact Hm|]. exact Hcat.
Qed.

End SenderFacts.

(** Closes a goal over concrete inputs by evaluation. *)
Ltac by_evaluation := vm_compute; repeat split; try reflexivity; try discriminate.

(** Seven bytes through a transport that takes three bytes at a time, in
    chunks of at most four: every byte is accepted once, in order. *)
Example three_bytes_at_a_time :
  exists w',
    call_times 4 4 (sender_at abcdefg 0) 7 (quiet_world (partial_net 3))
      = Ok ([3; 3; 1; 0], sender_at abcdefg 7) w' /\
    sent w' = [(7, [x61; x62; x63; x64]); (7, [x64; x65; x66; x67]); (7, [x67])].
Proof. eexists. split; reflexivity. Qed.

Lemma accepted_bytes_advance_cursor_witness :
  exists s' w',
    send_next_chunk 4 (sender_at abcdefg 0) 7 (quiet_world (partial_net 3)) = Ok (3, s') w' /\
    curr_loc s' = 3 /\
    chunk_of 4 s' = [x64; x65; x66; x67].
Proof.
  destruct (accepted_bytes_advance_cursor 4
              (sender_at abcdefg 0) 7 (quiet_world (partial_net 3)) 3)
    as (s' & w' & Hcall & Hcur & _ & _ & _ & _ & Hnext & _).
  - by_evaluation.
  - reflexivity.
  - by_evaluation.
  - exists s', w'. split; [exact Hcall|]. split; [exact Hcur|]. exact Hnext.
Defined.

Lemma exhausted_calls_are_idempotent_witness :
  call_times 4 3 (sender_at abcdefg 7) 7 (quiet_world accepting_net)
  = Ok ([0; 0; 0], sender_at abcdefg 7) (quiet_world accepting_net).
Proof.
  exact (proj2 (exhausted_calls_are_idempotent 4 (sender_at abcdefg 7) 7
                  (quiet_world accepting_net) 3 eq_refl)).
Defined.

Lemma chunk_copy_in_bounds_witness :
  memcpy 4 abcdefg 5 (bytes_in_chunk 4 (sender_at abcdefg 5)) = Some [x66; x67] /\
  send_next_chunk 4 (sender_at abcdefg 5) 7 (quiet_world accepting_net) <> Fault.
Proof.
  destruct (chunk_copy_in_bounds 4 ltac:(by_evaluation) (sender_at abcdefg 5) 7
              (quiet_world accepting_net))
    as (_ & _ & _ & _ & Hcopy & _ & Hsafe).
  - by_evaluation.
  - split; [exact Hcopy|exact Hsafe].
Defined.

Lemma unexpected_send_error_exits_witness :
  send_next_chunk 4 (sender_at abcdefg 0) 7 (quiet_world (failing_net ECONNRESET))
  = Exit EXIT_FAILURE
      (set_sent (fun l => l ++ [(7, [x61; x62; x63; x64])])
         (quiet_world (failing_net ECONNRESET))).
Proof.
  apply (unexpected_send_error_exits 4 ltac:(by_evaluation)).
  - by_evaluation.
  - by_evaluation.
  - by_evaluation.
  - intros [_ H]. discriminate H.
Defined.

(** C1, as stated, fails: send fails with ECONNRESET on a sender with bytes
    left, and the call does not come back to its caller with any result; the
    process exits. *)
Lemma unexpected_error_terminates_process :
  0 < array_length (sender_at abcdefg 0) - curr_loc (sender_at abcdefg 0) /\
  net (quiet_world (failing_net ECONNRESET)) 0%nat 7 [x61; x62; x63; x64]
    = {| ret := -1; errno := ECONNRESET |} /\
  ECONNRESET <> EAGAIN /\
  ~ returned (send_next_chunk 4 (sender_at abcdefg 0) 7 (quiet_world (failing_net ECONNRESET))) /\
  exists w',
    send_next_chunk 4 (sender_at abcdefg 0) 7 (quiet_world (failing_net ECONNRESET))
    = Exit EXIT_FAILURE w'.
Proof.
  split; [reflexivity|]. split; [reflexivity|]. split; [discriminate|].
  split; [vm_compute; intros []|].
  eexists. reflexivity.
Qed.

(** C2, as stated, fails: the transport accepts zero bytes of a chunk, and
    the call does not return a would-block result; the process exits. *)
Lemma zero_acceptance_is_not_would_block :
  0 < array_length (sender_at abcdefg 0) - curr_loc (sender_at abcdefg 0) /\
  ret (net (quiet_world zero_net) 0%nat 7 [x61; x62; x63; x64]) = 0 /\
  ~ returned (send_next_chunk 4 (sender_at abcdefg 0) 7 (quiet_world zero_net)) /\
  exists w',
    send_next_chunk 4 (sender_at abcdefg 0) 7 (quiet_world zero_net)
    = Exit EXIT_FAILURE w'.
Proof.
  split; [reflexivity|]. split; [reflexivity|].
  split; [vm_compute; intros []|].
  eexists. reflexivity.
Qed.

Lemma full_buffer_keeps_cursor_witness :
  exists w' w'',
    send_next_chunk 4 (sender_at abcdefg 2) 7 (quiet_world blocked_once_net)
      = Ok (-1, sender_at abcdefg 2) w' /\
    send_next_chunk 4 (sender_at abcdefg 2) 7 w'
      = Ok (4, sender_at abcdefg 6) w'' /\
    sent w'' = [(7, [x63; x64; x65; x66]); (7, [x63; x64; x65; x66])].
Proof.
  destruct (full_buffer_keeps_cursor 4 ltac:(by_evaluation)
              (sender_at abcdefg 2) 7 7 (quiet_world blocked_once_net) 4)
    as (w' & w'' & H1 & Hs1 & H2 & Hs2).
  - by_evaluation.
  - by_evaluation.
  - by_evaluation.
  - reflexivity.
  - reflexivity.
  - by_evaluation.
  - exists w', w''. split; [exact H1|]. split; [exact H2|].
    rewrite Hs2, Hs1. reflexivity.
Defined.

Lemma cursor_invariant_witness :
  0 <= curr_loc (sender_at abcdefg 4) <= array_length (sender_at abcdefg 4) /\
  curr_loc (sender_at abcdefg 4) <= curr_loc (sender_at abcdefg 7) /\
  (exhausted (sender_at abcdefg 4) <-> 4 = 7).
Proof.
  pose (w0 := quiet_world accepting_net).
  pose (w1 := set_sent (fun l => l ++ [(7, [x61; x62; x63; x64])]) w0).
  pose (w2 := set_sent (fun l => l ++ [(7, [x65; x66; x67])]) w1).
  destruct (cursor_invariant 4 ltac:(by_evaluation) abcdefg 7
              (sender_at abcdefg 0) (sender_at abcdefg 4) (sender_at abcdefg 7) w0 w1 w2)
    as (_ & _ & _ & Hin & _ & _ & Hmono & Hex & _).
  - by_evaluation.
  - reflexivity.
  - intros k fd buf. simpl. lia.
  - apply rtc_once. exists 7, 4. reflexivity.
  - apply rtc_once. exists 7, 3. reflexivity.
  - split; [exact Hin|]. split; [exact Hmono|exact Hex].
Defined.

(** The scenario of the specification: 10000 bytes, chunks of 4096. *)
Lemma drains_in_ceil_chunks_witness :
  exists s' w',
    send_all 4096 4 (sender_at payload_10000 0) 7 (quiet_world accepting_net)
      = Ok (Some ([4096; 4096; 1808], s')) w' /\
    curr_loc s' = 10000 /\
    map (fun e => Z.of_nat (length (snd e))) (sent w') = [4096; 4096; 1808].
Proof.
  destruct (drains_in_ceil_chunks 4096 ltac:(by_evaluation)
              (sender_at payload_10000 0) 7 (quiet_world accepting_net))
    as (_ & _ & ns & s' & w' & cs & Hrun & Hns & _ & _ & _ & Hcur & Hlen & Hsent & Hsizes & _).
  - by_evaluation.
  - intros k fd buf. reflexivity.
  - exists s', w'. subst ns.
    split; [exact Hrun|].
    split; [rewrite Hcur, Hlen; reflexivity|].
    rewrite Hsent. simpl. rewrite map_map. simpl. exact Hsizes.
Defined.

(** ** The dispatch loop *)

(** A client that [setup_new_client] accepts is new to the table, enters it
    under its own descriptor in RECEIVING mode without a transmitter, and is
    registered, non-blocking, for input and hangup events. *)
Lemma setup_new_client_registers (server_socket epoll_fd : Z)
    (clients clients' : gmap Z ConnectedClient) (w w' : World) :
  setup_new_client server_socket clients epoll_fd w = Ok clients' w' ->
  exists fd,
    clients !! fd = None /\
    clients' = <[fd := {| client_fd := fd; state := RECEIVING; sender := None |}]> clients /\
    interest w' !! fd = Some (Z.lor EPOLLIN EPOLLRDHUP) /\
    fd ∈ nonblocking w' /\
    sent w' = sent w.
Proof.
  unfold setup_new_client, accept_connection, set_non_blocking, bind_M, sys_accept,
    sys_fcntl_getfl, sys_fcntl_setfl, sys_epoll_ctl_add, exit, ret_M.
  destruct (pending w) as [|fd rest]; [discriminate|].
  destruct (Z.ltb fd 0) eqn:Hfd; [discriminate|]. simpl.
  case_bool_decide as Hin; [discriminate|].
  rewrite Hfd. 
  destruct (bool_decide (fd ∈ _)); simpl.
  all: destruct (interest w !! fd) eqn:Hint; simpl; [discriminate|].
  all: intros Heq; injection Heq as <- <-.
  all: exists fd; split;
    [destruct (clients !! fd) eqn:Hc; [exfalso; apply Hin; eauto|reflexivity]|].
  all: split; [reflexivity|]; simpl.
  all: split; [apply lookup_insert_eq|].
  all: split; [set_solver|reflexivity].
Qed.

Section DispatcherFacts.

Variable default_client : ConnectedClient.
Variable handle_input : ConnectedClient -> Z -> M ConnectedClient.

(** The world after [handle_close] on the client [c]. *)
Lemma handle_close_world (c : ConnectedClient) (epoll_fd : Z) (w : World) :
  exists c' w',
    handle_close c epoll_fd w = Ok c' w' /\
    sent w' = sent w /\ net w' = net w /\ pending w' = pending w /\
    interest w' = delete (client_fd c) (interest w) /\
    sender c' = None.
Proof. eexists _, _. repeat split. Qed.

(** The hangup branch: the entry of the handle is erased whatever the table
    held for it. *)
Lemma hangup_branch (epoll_fd server_socket : Z) (ev : epoll_event)
    (clients : gmap Z ConnectedClient) (w : World) :
  Z.land (events ev) EPOLLRDHUP <> 0 ->
  handle_event default_client handle_input epoll_fd server_socket ev clients w
  = bind_M (handle_close (default default_client (clients !! data_fd ev)) epoll_fd)
           (fun _ => ret_M (delete (data_fd ev) clients)) w.
Proof.
  intros Hup. unfold handle_event.
  destruct (Z.eqb_spec (Z.land (events ev) EPOLLRDHUP) 0) as [|_]; [contradiction|].
  cbn [negb]. unfold map_index.
  destruct (clients !! data_fd ev) as [c|] eqn:Hc; simpl;
    unfold bind_M, handle_close, ret_M;
    rewrite ?delete_insert_eq;
    destruct (negb _); reflexivity.
Qed.

(** C8: an event with the hangup bit set is handled by the hangup branch
    whatever the client's mode and whatever other bits the event carries:
    the client is closed, its entry is erased and all other entries are
    kept, no send is made, the input handler is not consulted, and the
    client's descriptor leaves the interest list. *)
Theorem hangup_closes_first (epoll_fd server_socket : Z) (ev : epoll_event)
    (clients : gmap Z ConnectedClient) (w : World) :
  Z.land (events ev) EPOLLRDHUP <> 0 ->
  exists w',
    handle_event default_client handle_input epoll_fd server_socket ev clients w
      = Ok (delete (data_fd ev) clients) w' /\
    delete (data_fd ev) clients !! data_fd ev = None /\
    (forall fd, fd <> data_fd ev -> delete (data_fd ev) clients !! fd = clients !! fd) /\
    sent w' = sent w /\
    (forall c, clients !! data_fd ev = Some c -> interest w' !! client_fd c = None) /\
    (forall other_input ev',
       data_fd ev' = data_fd ev -> Z.land (events ev') EPOLLRDHUP <> 0 ->
       handle_event default_client other_input epoll_fd server_socket ev' clients w
       = Ok (delete (data_fd ev) clients) w').
Proof.
  intros Hup.
  exists (set_nonblocking
            (fun s => s ∖ {[client_fd (default default_client (clients !! data_fd ev))]})
            (set_interest
               (delete (client_fd (default default_client (clients !! data_fd ev)))) w)).
  split; [rewrite hangup_branch by assumption; reflexivity|].
  split; [apply lookup_delete_eq|].
  split; [intros fd Hne; apply lookup_delete_ne; congruence|].
  split; [reflexivity|].
  split.
  { intros c Hc. rewrite Hc. simpl. apply lookup_delete_eq. }
  intros other_input ev' Hfd Hup'. unfold handle_event.
  destruct (Z.eqb_spec (Z.land (events ev') EPOLLRDHUP) 0) as [|_]; [contradiction|].
  cbn [negb]. rewrite Hfd. unfold map_index.
  destruct (clients !! data_fd ev) as [c|] eqn:Hc; simpl;
    unfold bind_M, handle_close, ret_M;
    rewrite ?delete_insert_eq;
    destruct (negb _); reflexivity.
Qed.

(** C9: a hangup event for a handle that is not in the table comes back
    without an error and with the table it started from: the entry that
    [clients[fd]] creates is erased in the same branch. *)
Theorem close_absent_handle_keeps_table (epoll_fd server_socket : Z) (ev : epoll_event)
    (clients : gmap Z ConnectedClient) (w : World) :
  Z.land (events ev) EPOLLRDHUP <> 0 ->
  clients !! data_fd ev = None ->
  exists w',
    handle_event default_client handle_input epoll_fd server_socket ev clients w
      = Ok clients w' /\
    sent w' = sent w /\ pending w' = pending w /\
    interest w' = delete (client_fd default_client) (interest w).
Proof.
  intros Hup Habsent.
  rewrite hangup_branch by assumption. rewrite Habsent. simpl.
  unfold bind_M, handle_close, ret_M.
  rewrite delete_id by assumption.
  eexists. repeat split.
Qed.

(** An event that is neither a hangup nor an input changes nothing, also
    when it says that the socket can be written. *)
Lemma output_only_event (epoll_fd server_socket : Z) (ev : epoll_event)
    (clients : gmap Z ConnectedClient) (w : World) :
  Z.land (events ev) EPOLLRDHUP = 0 ->
  Z.land (events ev) EPOLLIN = 0 ->
  handle_event default_client handle_input epoll_fd server_socket ev clients w
  = Ok clients w.
Proof.
  intros Hup Hin. unfold handle_event. rewrite Hup, Hin. simpl.
  unfold bind_M, ret_M. destruct (negb _); reflexivity.
Qed.

(** A wake-up whose events are all of that kind changes nothing. *)
Lemma handle_events_output_only (epoll_fd server_socket : Z) (evs : list epoll_event)
    (clients : gmap Z ConnectedClient) (w : World) :
  Forall (fun ev => Z.land (events ev) EPOLLRDHUP = 0 /\ Z.land (events ev) EPOLLIN = 0) evs ->
  handle_events default_client handle_input epoll_fd server_socket evs clients w
  = Ok clients w.
Proof.
  induction 1 as [|ev evs [Hup Hin] _ IH]; [reflexivity|].
  simpl. unfold bind_M. rewrite output_only_event by assumption. exact IH.
Qed.

(** A connection is accepted at one wake-up and hangs up at the next: the
    table is empty again and the descriptor is out of the interest list. *)
Example accept_then_hangup :
  exists w',
    event_loop default_client handle_input 3 4
      [ {| num_events := 1; ready := [ {| events := EPOLLIN; data_fd := 4 |} ] |};
        {| num_events := 1;
           ready := [ {| events := Z.lor EPOLLRDHUP EPOLLIN; data_fd := 7 |} ] |} ]
      (set_pending (fun _ => [7]) (quiet_world accepting_net))
    = Ok ∅ w' /\
    interest w' !! 7 = None /\ sent w' = [].
Proof. eexists. repeat split. Qed.

(** C4, on the code: a write-readiness event for a client in SENDING mode
    with 2000 bytes left changes neither the table nor the world; nothing is
    drained. *)
Theorem write_ready_is_ignored (epoll_fd server_socket : Z) :
  state (mid_send_client 7) = SENDING /\
  Z.land EPOLLOUT EPOLLOUT <> 0 /\
  handle_event default_client handle_input epoll_fd server_socket
    {| events := EPOLLOUT; data_fd := 7 |}
    {[ 7 := mid_send_client 7 ]} (registered_world [7])
  = Ok {[ 7 := mid_send_client 7 ]} (registered_world [7]).
Proof.
  split; [reflexivity|]. split; [discriminate|].
  apply output_only_event; reflexivity.
Qed.

End DispatcherFacts.

Lemma hangup_closes_first_witness :
  exists w',
    handle_event (ConnectedClient_new 0 RECEIVING) (fun _ _ => fault) 3 4
      {| events := Z.lor EPOLLRDHUP (Z.lor EPOLLIN EPOLLOUT); data_fd := 7 |}
      {[ 7 := mid_send_client 7 ]} (registered_world [7])
    = Ok ∅ w' /\
    sent w' = [] /\ interest w' !! 7 = None.
Proof.
  destruct (hangup_closes_first (ConnectedClient_new 0 RECEIVING) (fun _ _ => fault) 3 4
              {| events := Z.lor EPOLLRDHUP (Z.lor EPOLLIN EPOLLOUT); data_fd := 7 |}
              {[ 7 := mid_send_client 7 ]} (registered_world [7]))
    as (w' & Hrun & _ & _ & Hsent & Hint & _).
  - by_evaluation.
  - exists w'. split.
    + rewrite Hrun, delete_singleton_eq. reflexivity.
    + split; [exact Hsent|]. apply (Hint (mid_send_client 7)). reflexivity.
Defined.

Lemma close_absent_handle_keeps_table_witness :
  exists w',
    handle_event (ConnectedClient_new 0 RECEIVING) (fun _ _ => fault) 3 4
      {| events := EPOLLRDHUP; data_fd := 7 |}
      {[ 8 := ConnectedClient_new 8 RECEIVING ]} (registered_world [8])
    = Ok {[ 8 := ConnectedClient_new 8 RECEIVING ]} w'.
Proof.
  destruct (close_absent_handle_keeps_table (ConnectedClient_new 0 RECEIVING)
              (fun _ _ => fault) 3 4 {| events := EPOLLRDHUP; data_fd := 7 |}
              {[ 8 := ConnectedClient_new 8 RECEIVING ]} (registered_world [8]))
    as (w' & Hrun & _).
  - by_evaluation.
  - reflexivity.
  - exists w'. exact Hrun.
Defined.

(** * Further properties *)

(** ** The sender *)

Lemma accepted_from_snoc (n : nat -> Z -> list byte -> send_result) (log : list (Z * list byte))
    (k : nat) (fd : Z) (buf : list byte) :
  accepted_from n k (log ++ [(fd, buf)])
  = accepted_from n k log ++ take (Z.to_nat (ret (n (k + length log)%nat fd buf))) buf.
Proof.
  revert k. induction log as [|e log IH]; intros k; simpl.
  - rewrite Nat.add_0_r, app_nil_r. reflexivity.
  - rewrite IH, <- app_assoc.
    replace (k + S (length log))%nat with (S k + length log)%nat by lia. reflexivity.
Qed.

(** The stream after one more send. *)
Lemma accepted_after_send (w : World) (fd : Z) (buf : list byte) :
  accepted (set_sent (fun l => l ++ [(fd, buf)]) w)
  = accepted w ++ take (Z.to_nat (ret (net w (length (sent w)) fd buf))) buf.
Proof. unfold accepted. simpl. apply accepted_from_snoc. Qed.

Section SenderMore.

Variable CHUNK_SIZE : Z.
Hypothesis CHUNK_SIZE_range : 0 < CHUNK_SIZE <= SSIZE_MAX.

(** A call whose send takes [K > 0] of the bytes offered. *)
Lemma send_next_chunk_positive (s : ArraySender) (sock_fd : Z) (w : World) (K : Z) :
  sender_wf s ->
  ret (net w (length (sent w)) sock_fd (chunk_of CHUNK_SIZE s)) = K ->
  0 < K <= bytes_in_chunk CHUNK_SIZE s ->
  send_next_chunk CHUNK_SIZE s sock_fd w
  = Ok (K, set_curr_loc (curr_loc s + K) s)
       (set_sent (fun l => l ++ [(sock_fd, chunk_of CHUNK_SIZE s)]) w).
Proof.
  intros Hwf HK Hrange.
  rewrite send_next_chunk_wf by assumption.
  destruct (Z.ltb_spec 0 (bytes_in_chunk CHUNK_SIZE s)); [|lia].
  cbv zeta. rewrite HK.
  destruct (Z.ltb_spec 0 K); [|lia].
  destruct (advance_no_wrap CHUNK_SIZE s K Hwf) as [-> _]; [lia|reflexivity].
Qed.

(** The cases of a call that returned, on a well-formed sender. *)
Lemma send_next_chunk_returned (s s' : ArraySender) (sock_fd n : Z) (w w' : World) :
  sender_wf s ->
  send_next_chunk CHUNK_SIZE s sock_fd w = Ok (n, s') w' ->
  (n = 0 /\ curr_loc s = array_length s /\ s' = s /\ w' = w) \/
  (curr_loc s < array_length s /\
   w' = set_sent (fun l => l ++ [(sock_fd, chunk_of CHUNK_SIZE s)]) w /\
   ((n = -1 /\ s' = s /\
     ret (net w (length (sent w)) sock_fd (chunk_of CHUNK_SIZE s)) < 0) \/
    (0 < n /\ n = ret (net w (length (sent w)) sock_fd (chunk_of CHUNK_SIZE s)) /\
     s' = set_curr_loc (size_t_wrap (curr_loc s + n)) s))).
Proof.
  intros Hwf Hcall.
  rewrite send_next_chunk_wf in Hcall by assumption.
  rewrite (bytes_in_chunk_wf CHUNK_SIZE s Hwf) in Hcall.
  pose proof Hwf as (_ & _ & Hcur).
  destruct (Z.ltb_spec 0 (Z.min (array_length s - curr_loc s) CHUNK_SIZE)) as [Hpos|Hz].
  - right. cbv zeta in Hcall. split; [lia|].
    destruct (Z.ltb_spec 0 (ret (net w (length (sent w)) sock_fd (chunk_of CHUNK_SIZE s))))
      as [Hacc|Hnone].
    + injection Hcall as <- <- <-. split; [reflexivity|]. right. auto.
    + destruct (Z.ltb_spec (ret (net w (length (sent w)) sock_fd (chunk_of CHUNK_SIZE s))) 0);
        simpl in Hcall; [|discriminate].
      destruct (Z.eqb _ EAGAIN); [|discriminate].
      injection Hcall as <- <- <-. split; [reflexivity|]. left. auto.
  - left. injection Hcall as <- <- <-. repeat split; lia.
Qed.

(** X1: the value a call returns, over a transport that keeps the contract
    of send: it lies between -1 and [min remaining CHUNK_SIZE]; it is 0
    exactly when the cursor is at the length; the cursor moves by the value
    when this is positive and not at all otherwise; the payload and its
    length are never changed; and one chunk is logged unless the value
    is 0. *)
Theorem send_next_chunk_result_range (s s' : ArraySender) (sock_fd n : Z) (w w' : World) :
  sender_wf s -> posix_send w ->
  send_next_chunk CHUNK_SIZE s sock_fd w = Ok (n, s') w' ->
  -1 <= n <= Z.min (array_length s - curr_loc s) CHUNK_SIZE /\
  (n = 0 <-> curr_loc s = array_length s) /\
  curr_loc s' = curr_loc s + Z.max n 0 /\
  array s' = array s /\ array_length s' = array_length s /\
  net w' = net w /\
  sent w' = (if Z.eqb n 0 then sent w else sent w ++ [(sock_fd, chunk_of CHUNK_SIZE s)]).
Proof.
  intros Hwf Hposix Hcall.
  pose proof (Hposix (length (sent w)) sock_fd (chunk_of CHUNK_SIZE s)) as Hle.
  rewrite (length_chunk_of CHUNK_SIZE CHUNK_SIZE_range s Hwf) in Hle.
  pose proof (bytes_in_chunk_wf CHUNK_SIZE s Hwf) as Hb.
  pose proof Hwf as (_ & _ & Hcur).
  destruct (send_next_chunk_returned _ _ _ _ _ _ Hwf Hcall)
    as [(-> & Hend & -> & ->) | (Hmore & -> & [(-> & -> & _) | (Hpos & Hn & ->)])].
  - repeat split; try reflexivity; try lia.
  - repeat split; try reflexivity; try lia.
  - destruct (advance_no_wrap CHUNK_SIZE s n Hwf) as [Hnw _]; [lia|].
    rewrite Hnw. simpl.
    destruct (Z.eqb_spec n 0); [lia|].
    repeat split; try reflexivity; try lia.
Qed.

(** One returning call keeps the stream equal to the payload before the
    cursor. *)
Lemma call_step_stream (a b : ArraySender * World) :
  call_step CHUNK_SIZE a b ->
  sender_wf (fst a) -> posix_send (snd a) ->
  accepted (snd a) = take (Z.to_nat (curr_loc (fst a))) (array (fst a)) ->
  accepted (snd b) = take (Z.to_nat (curr_loc (fst b))) (array (fst b)) /\
  array (fst b) = array (fst a).
Proof.
  destruct a as [s w], b as [s' w']. simpl.
  intros (fd & n & Hcall) Hwf Hposix Hacc. simpl in Hcall.
  pose proof (Hposix (length (sent w)) fd (chunk_of CHUNK_SIZE s)) as Hle.
  rewrite (length_chunk_of CHUNK_SIZE CHUNK_SIZE_range s Hwf) in Hle.
  pose proof Hwf as (_ & _ & Hcur).
  destruct (send_next_chunk_returned _ _ _ _ _ _ Hwf Hcall)
    as [(-> & Hend & -> & ->) | (Hmore & -> & [(-> & -> & Hneg) | (Hpos & Hn & ->)])].
  - split; [assumption|reflexivity].
  - split; [|reflexivity].
    rewrite accepted_after_send, Hacc.
    replace (Z.to_nat (ret _)) with 0%nat by lia.
    rewrite take_0, app_nil_r. reflexivity.
  - split; [|reflexivity].
    destruct (advance_no_wrap CHUNK_SIZE s n Hwf) as [Hnw _]; [lia|].
    rewrite Hnw, accepted_after_send, Hacc, <- Hn. simpl.
    replace (Z.to_nat (curr_loc s + n)) with (Z.to_nat (curr_loc s) + Z.to_nat n)%nat by lia.
    rewrite <- take_take_drop. f_equal. unfold chunk_of.
    rewrite take_take. f_equal. lia.
Qed.

(** X2: over a transport that keeps the contract of send, whatever calls
    are made and however they end (accepted in full, in part, or refused
    with EAGAIN), the bytes the transport has taken are the payload bytes
    before the cursor: nothing is sent twice, left out or reordered. *)
Theorem accepted_stream_is_payload_prefix (s s' : ArraySender) (w w' : World) :
  sender_wf s -> posix_send w ->
  accepted w = take (Z.to_nat (curr_loc s)) (array s) ->
  rtc (call_step CHUNK_SIZE) (s, w) (s', w') ->
  accepted w' = take (Z.to_nat (curr_loc s')) (array s) /\
  Z.of_nat (length (accepted w')) = curr_loc s'.
Proof.
  intros Hwf Hposix Hacc Hreach.
  assert (Hgen : forall a b, rtc (call_step CHUNK_SIZE) a b ->
            sender_wf (fst a) -> posix_send (snd a) ->
            accepted (snd a) = take (Z.to_nat (curr_loc (fst a))) (array (fst a)) ->
            accepted (snd b) = take (Z.to_nat (curr_loc (fst b))) (array (fst b)) /\
            array (fst b) = array (fst a) /\ sender_wf (fst b)).
  { induction 1 as [a|a b c Hab Hbc IH]; intros Hwfa Hpa Ha; [auto|].
    destruct (call_step_preserves CHUNK_SIZE CHUNK_SIZE_range a b Hab Hwfa Hpa)
      as (Hwfb & Hpb & _).
    destruct (call_step_stream a b Hab Hwfa Hpa Ha) as [Hb Harr].
    destruct (IH Hwfb Hpb Hb) as (Hc & Harr' & Hwfc).
    split; [assumption|]. split; [congruence|assumption]. }
  destruct (Hgen _ _ Hreach Hwf Hposix Hacc) as (Hstream & Harr & Hwf').
  simpl in *. rewrite Harr in Hstream. split; [assumption|].
  rewrite Hstream, length_take.
  destruct Hwf' as (Hlen & _ & Hcur). rewrite Harr in Hlen. lia.
Qed.


Lemma send_all_progress (fuel : nat) :
  forall (s : ArraySender) (sock_fd : Z) (w : World),
  sender_wf s -> makes_progress w ->
  array_length s - curr_loc s < Z.of_nat fuel ->
  exists ns s' w',
    send_all CHUNK_SIZE fuel s sock_fd w = Ok (Some (ns, s')) w' /\
    sum_Z ns = array_length s - curr_loc s /\
    Forall (fun n => 0 < n <= CHUNK_SIZE) ns /\
    curr_loc s' = array_length s /\ array s' = array s /\
    array_length s' = array_length s /\
    net w' = net w /\
    accepted w' = accepted w ++ drop (Z.to_nat (curr_loc s)) (array s) /\
    length (sent w') = (length (sent w) + length ns)%nat.
Proof.
  induction fuel as [|fuel IH]; intros s fd w Hwf Hprog Hfuel.
  - destruct Hwf as (_ & _ & ?). lia.
  - pose proof Hwf as (Hlen & Hmax & Hcur).
    destruct (Z.eq_dec (curr_loc s) (array_length s)) as [Hend|Hmore].
    + exists [], s, w. simpl. unfold bind_M.
      rewrite (proj2 (returns_zero_iff CHUNK_SIZE CHUNK_SIZE_range s fd w Hwf) Hend). simpl.
      rewrite drop_ge, app_nil_r, Nat.add_0_r by lia.
      split; [reflexivity|]. split; [unfold sum_Z; simpl; lia|].
      split; [constructor|]. repeat split; try reflexivity; assumption.
    + pose proof (bytes_in_chunk_wf CHUNK_SIZE s Hwf) as Hb.
      pose proof (length_chunk_of CHUNK_SIZE CHUNK_SIZE_range s Hwf) as Hl.
      set (K := ret (net w (length (sent w)) fd (chunk_of CHUNK_SIZE s))).
      assert (HK : 0 < K <= bytes_in_chunk CHUNK_SIZE s).
      { rewrite <- Hl. apply Hprog. intros Hnil. rewrite Hnil in Hl. simpl in Hl. lia. }
      set (s1 := set_curr_loc (curr_loc s + K) s).
      assert (Hwf1 : sender_wf s1) by (apply set_curr_loc_wf; [assumption|lia]).
      destruct (IH s1 fd (set_sent (fun l => l ++ [(fd, chunk_of CHUNK_SIZE s)]) w) Hwf1 Hprog)
        as (ns & s' & w' & Hrun & Hsum & Hall & Hc & Ha & Hal & Hnet & Hacc & Hcount).
      { simpl. lia. }
      exists (K :: ns), s', w'.
      split.
      { simpl. unfold bind_M.
        rewrite (send_next_chunk_positive s fd w K Hwf eq_refl HK). fold s1. simpl.
        destruct (Z.eqb_spec K 0); [lia|]. rewrite Hrun. reflexivity. }
      split; [unfold sum_Z in *; simpl in *; lia|].
      split; [constructor; [lia|assumption]|].
      split; [exact Hc|]. split; [exact Ha|]. split; [exact Hal|]. split; [exact Hnet|].
      split.
      { rewrite Hacc, accepted_after_send. fold K. rewrite <- app_assoc. f_equal.
        exact (accepted_then_rest CHUNK_SIZE s K Hwf ltac:(lia)). }
      rewrite Hcount. simpl. rewrite length_app. simpl. lia.
Qed.

(** X3: through a transport that takes at least one byte of every chunk,
    draining a sender with [r] bytes left ends within [r + 1] calls: every
    value returned is positive and at most [CHUNK_SIZE], the values sum to
    [r], the cursor ends at the length, one send was made per value, and the
    transport has taken exactly the rest of the payload. *)
Theorem drain_terminates_under_progress (s : ArraySender) (sock_fd : Z) (w : World) :
  sender_wf s -> makes_progress w ->
  exists ns s' w',
    send_all CHUNK_SIZE (S (Z.to_nat (array_length s - curr_loc s))) s sock_fd w
      = Ok (Some (ns, s')) w' /\
    sum_Z ns = array_length s - curr_loc s /\
    Forall (fun n => 0 < n <= CHUNK_SIZE) ns /\
    Z.of_nat (length ns) <= array_length s - curr_loc s /\
    curr_loc s' = array_length s' /\
    accepted w' = accepted w ++ drop (Z.to_nat (curr_loc s)) (array s) /\
    length (sent w') = (length (sent w) + length ns)%nat.
Proof.
  intros Hwf Hprog.
  destruct (send_all_progress (S (Z.to_nat (array_length s - curr_loc s))) s sock_fd w Hwf Hprog)
    as (ns & s' & w' & Hrun & Hsum & Hall & Hc & _ & Hal & _ & Hacc & Hcount).
  { destruct Hwf as (_ & _ & ?). lia. }
  exists ns, s', w'.
  split; [exact Hrun|]. split; [exact Hsum|]. split; [exact Hall|].
  split.
  { rewrite <- Hsum. clear -Hall. induction Hall as [|n ns Hn _ IH]; [reflexivity|].
    unfold sum_Z in *. simpl length. simpl fold_right. lia. }
  split; [congruence|]. split; [exact Hacc|exact Hcount].
Qed.

(** X4: a sender constructed over the first [len] bytes of a buffer and
    drained through a fresh transport that takes at least one byte of every
    chunk delivers exactly those [len] bytes. *)
Theorem constructed_payload_is_delivered (array_to_send : list byte) (len : Z)
    (s : ArraySender) (sock_fd : Z) (w : World) :
  0 <= len <= SIZE_MAX ->
  ArraySender_new array_to_send len = Some s ->
  makes_progress w -> sent w = [] ->
  exists ns s' w',
    send_all CHUNK_SIZE (S (Z.to_nat len)) s sock_fd w = Ok (Some (ns, s')) w' /\
    accepted w' = take (Z.to_nat len) array_to_send /\
    Z.of_nat (length (accepted w')) = len /\
    sum_Z ns = len.
Proof.
  intros Hlen Hnew Hprog Hfresh.
  destruct (ArraySender_new_wf _ _ _ Hlen Hnew) as (Hwf & Hcur & Hal & Harr).
  destruct (send_all_progress (S (Z.to_nat len)) s sock_fd w Hwf Hprog)
    as (ns & s' & w' & Hrun & Hsum & _ & _ & _ & _ & _ & Hacc & _).
  { rewrite Hcur, Hal. lia. }
  exists ns, s', w'.
  assert (Hstream : accepted w' = take (Z.to_nat len) array_to_send).
  { rewrite Hacc. unfold accepted at 1. rewrite Hfresh, Hcur, Harr. reflexivity. }
  split; [exact Hrun|]. split; [exact Hstream|].
  split.
  { rewrite Hstream, <- Harr. destruct Hwf as (Hl & _). lia. }
  rewrite Hsum, Hcur, Hal. lia.
Qed.

Lemma size_t_wrap_negative (z : Z) : - SIZE_MAX <= z < 0 -> size_t_wrap z = z + 2 ^ 64.
Proof.
  unfold size_t_wrap, SIZE_MAX. intros Hz.
  rewrite <- (Z_mod_plus_full z 1 (2 ^ 64)). apply Z.mod_small. lia.
Qed.

(** A sender whose cursor is past the end of its array: a call reads outside
    the array. *)
Lemma send_next_chunk_past_end (s : ArraySender) (sock_fd : Z) (w : World) :
  Z.of_nat (length (array s)) = array_length s ->
  array_length s < curr_loc s <= SIZE_MAX ->
  send_next_chunk CHUNK_SIZE s sock_fd w = Fault.
Proof.
  intros Hlen Hpast. unfold send_next_chunk.
  rewrite size_t_wrap_negative by (unfold SIZE_MAX in *; lia).
  set (n := Z.min (array_length s - curr_loc s + 2 ^ 64) CHUNK_SIZE).
  assert (0 < n) by (unfold n, SIZE_MAX in *; lia).
  destruct (Z.ltb_spec 0 n); [|lia].
  rewrite memcpy_out_of_bounds; [reflexivity|lia|lia|lia].
Qed.

(** X5: [send_next_chunk] trusts the value send returns: when send reports
    more bytes than were left, the call returns that value, the cursor ends
    past the end of the array, and every later call reads outside the
    array. *)
Theorem overreported_send_breaks_bounds (s : ArraySender) (sock_fd : Z) (w : World) (K : Z) :
  sender_wf s ->
  0 < array_length s - curr_loc s ->
  ret (net w (length (sent w)) sock_fd (chunk_of CHUNK_SIZE s)) = K ->
  array_length s - curr_loc s < K ->
  curr_loc s + K <= SIZE_MAX ->
  exists s1 w1,
    send_next_chunk CHUNK_SIZE s sock_fd w = Ok (K, s1) w1 /\
    array_length s1 < curr_loc s1 /\
    forall fd2 w2, send_next_chunk CHUNK_SIZE s1 fd2 w2 = Fault.
Proof.
  intros Hwf Hrem HK Hover Hfit.
  pose proof Hwf as (Hlen & Hmax & Hcur).
  exists (set_curr_loc (curr_loc s + K) s),
         (set_sent (fun l => l ++ [(sock_fd, chunk_of CHUNK_SIZE s)]) w).
  split.
  { rewrite send_next_chunk_wf by assumption.
    rewrite (bytes_in_chunk_wf CHUNK_SIZE s Hwf).
    destruct (Z.ltb_spec 0 (Z.min (array_length s - curr_loc s) CHUNK_SIZE)); [|lia].
    cbv zeta. rewrite HK.
    destruct (Z.ltb_spec 0 K); [|lia].
    rewrite size_t_wrap_small by lia. reflexivity. }
  split; [simpl; lia|].
  intros fd2 w2. apply send_next_chunk_past_end; simpl; lia.
Qed.

End SenderMore.

(** ** The dispatch loop *)

Lemma bind_ret_if {A} (m : M A) (b : bool) (w : World) :
  bind_M m (fun a => if b then ret_M a else ret_M a) w = m w.
Proof. unfold bind_M, ret_M. destruct (m w), b; reflexivity. Qed.

(** Accepting a pending connection whose descriptor is new to the table and
    to the interest list. *)
Lemma setup_new_client_fresh (server_socket epoll_fd fd : Z) (rest : list Z)
    (clients : gmap Z ConnectedClient) (w : World) :
  pending w = fd :: rest -> 0 <= fd ->
  clients !! fd = None -> interest w !! fd = None ->
  setup_new_client server_socket clients epoll_fd w
  = Ok (<[fd := ConnectedClient_new fd RECEIVING]> clients)
       {| net := net w; sent := sent w;
          interest := <[fd := Z.lor EPOLLIN EPOLLRDHUP]> (interest w);
          nonblocking := {[fd]} ∪ nonblocking w; pending := rest |}.
Proof.
  intros Hpend Hfd Hnew Hint.
  unfold setup_new_client, accept_connection, set_non_blocking, bind_M, sys_accept,
    sys_fcntl_getfl, sys_fcntl_setfl, sys_epoll_ctl_add, exit, ret_M.
  rewrite Hpend.
  destruct (Z.ltb_spec fd 0) as [|_]; [lia|]. simpl.
  rewrite Hnew. rewrite bool_decide_eq_false_2 by (intros [? ?]; discriminate).
  destruct (Z.ltb_spec fd 0) as [|_]; [lia|].
  destruct (bool_decide (fd ∈ _)); simpl; rewrite Hint; reflexivity.
Qed.

(** X6: with a connection pending whose descriptor is in neither the table
    nor the interest list, [setup_new_client] accepts exactly that one
    connection (the others stay pending), adds an entry for it in RECEIVING
    mode without a sender, leaves every other entry alone, registers it for
    input and hangup events (not for output), makes it non-blocking and sends
    nothing. *)
Theorem setup_new_client_accepts_one (server_socket epoll_fd fd : Z) (rest : list Z)
    (clients : gmap Z ConnectedClient) (w : World) :
  pending w = fd :: rest -> 0 <= fd ->
  clients !! fd = None -> interest w !! fd = None ->
  exists clients' w',
    setup_new_client server_socket clients epoll_fd w = Ok clients' w' /\
    clients' !! fd = Some {| client_fd := fd; state := RECEIVING; sender := None |} /\
    (forall fd', fd' <> fd -> clients' !! fd' = clients !! fd') /\
    pending w' = rest /\
    interest w' = <[fd := Z.lor EPOLLIN EPOLLRDHUP]> (interest w) /\
    Z.land (Z.lor EPOLLIN EPOLLRDHUP) EPOLLOUT = 0 /\
    nonblocking w' = {[fd]} ∪ nonblocking w /\
    sent w' = sent w /\ net w' = net w.
Proof.
  intros Hpend Hfd Hnew Hint.
  eexists _, _. split; [apply (setup_new_client_fresh _ _ fd rest); assumption|].
  split; [apply lookup_insert_eq|].
  split; [intros fd' Hne; apply lookup_insert_ne; congruence|].
  repeat split; reflexivity.
Qed.


(** *** Computations that never send *)

Lemma keeps_log_ret {A} (a : A) : keeps_log (ret_M a).
Proof. intros w. reflexivity. Qed.

Lemma keeps_log_exit {A} (st : Z) : keeps_log (@exit A st).
Proof. intros w. reflexivity. Qed.

Lemma keeps_log_bind {A B} (m : M A) (k : A -> M B) :
  keeps_log m -> (forall a, keeps_log (k a)) -> keeps_log (bind_M m k).
Proof.
  intros Hm Hk w. unfold bind_M. specialize (Hm w).
  destruct (m w) as [a w1|st w1|]; simpl in *; [|assumption|exact I].
  specialize (Hk a w1). destruct (k a w1); simpl in *; congruence.
Qed.

Lemma keeps_log_if {A} (b : bool) (m1 m2 : M A) :
  keeps_log m1 -> keeps_log m2 -> keeps_log (if b then m1 else m2).
Proof. destruct b; auto. Qed.

Lemma keeps_log_accept_connection (server_socket : Z) :
  keeps_log (accept_connection server_socket).
Proof.
  apply keeps_log_bind.
  - intros w. unfold sys_accept. destruct (pending w); reflexivity.
  - intros fd. apply keeps_log_if; [apply keeps_log_exit|apply keeps_log_ret].
Qed.

Lemma keeps_log_set_non_blocking (sock : Z) : keeps_log (set_non_blocking sock).
Proof.
  apply keeps_log_bind.
  - intros w. unfold sys_fcntl_getfl. destruct (Z.ltb sock 0); reflexivity.
  - intros flags. apply keeps_log_if; [apply keeps_log_exit|].
    apply keeps_log_bind.
    + intros w. unfold sys_fcntl_setfl.
      destruct (Z.ltb sock 0); [reflexivity|]. destruct (Z.eqb _ 0); reflexivity.
    + intros r. apply keeps_log_if; [apply keeps_log_exit|apply keeps_log_ret].
Qed.

Lemma keeps_log_setup_new_client (server_socket epoll_fd : Z)
    (clients : gmap Z ConnectedClient) :
  keeps_log (setup_new_client server_socket clients epoll_fd).
Proof.
  apply keeps_log_bind; [apply keeps_log_accept_connection|].
  intros fd. apply keeps_log_if; [apply keeps_log_exit|].
  apply keeps_log_bind; [apply keeps_log_set_non_blocking|].
  intros _. apply keeps_log_bind.
  - intros w. unfold sys_epoll_ctl_add. destruct (interest w !! fd); reflexivity.
  - intros r. apply keeps_log_if; [apply keeps_log_exit|apply keeps_log_ret].
Qed.

Lemma keeps_log_handle_close (c : ConnectedClient) (epoll_fd : Z) :
  keeps_log (handle_close c epoll_fd).
Proof. intros w. reflexivity. Qed.


Section DispatcherMore.

Variable default_client : ConnectedClient.
Variable handle_input : ConnectedClient -> Z -> M ConnectedClient.

(** The input branch for a client: [handle_input] runs on the entry of the
    table, or on a default-constructed one, and its result is stored under the
    descriptor of the event. *)
Lemma input_branch (epoll_fd server_socket : Z) (ev : epoll_event)
    (clients : gmap Z ConnectedClient) (w : World) :
  Z.land (events ev) EPOLLRDHUP = 0 ->
  Z.land (events ev) EPOLLIN <> 0 ->
  data_fd ev <> server_socket ->
  handle_event default_client handle_input epoll_fd server_socket ev clients w
  = bind_M (handle_input (default default_client (clients !! data_fd ev)) epoll_fd)
           (fun c => ret_M (<[data_fd ev := c]> clients)) w.
Proof.
  intros Hup Hin Hsrv. unfold handle_event.
  rewrite bind_ret_if. rewrite Hup. simpl.
  destruct (Z.eqb_spec (Z.land (events ev) EPOLLIN) 0) as [|_]; [contradiction|]. simpl.
  destruct (Z.eqb_spec (data_fd ev) server_socket) as [|_]; [contradiction|].
  unfold map_index.
  destruct (clients !! data_fd ev) as [c|]; simpl; [reflexivity|].
  unfold bind_M. destruct (handle_input default_client epoll_fd w); try reflexivity.
  unfold ret_M. rewrite insert_insert_eq. reflexivity.
Qed.

(** X8: an input event for a descriptor that is neither the listening
    socket nor in the table makes [clients[fd]] create an entry: the input
    handler runs on a default-constructed client and its result stays in the
    table under that descriptor, so the table grows by one. *)
Theorem input_for_unknown_handle_creates_entry (epoll_fd server_socket : Z)
    (ev : epoll_event) (clients : gmap Z ConnectedClient) (w w' : World)
    (c' : ConnectedClient) :
  Z.land (events ev) EPOLLRDHUP = 0 ->
  Z.land (events ev) EPOLLIN <> 0 ->
  data_fd ev <> server_socket ->
  clients !! data_fd ev = None ->
  handle_input default_client epoll_fd w = Ok c' w' ->
  handle_event default_client handle_input epoll_fd server_socket ev clients w
    = Ok (<[data_fd ev := c']> clients) w' /\
  <[data_fd ev := c']> clients !! data_fd ev = Some c' /\
  size (<[data_fd ev := c']> clients) = S (size clients).
Proof.
  intros Hup Hin Hsrv Habsent Hinput.
  rewrite input_branch by assumption.
  rewrite Habsent. simpl. unfold bind_M. rewrite Hinput.
  split; [reflexivity|]. split; [apply lookup_insert_eq|].
  apply map_size_insert_None. assumption.
Qed.

(** One event leaves the entries of the other descriptors as they are. *)
Lemma handle_event_frame (epoll_fd server_socket : Z) (ev : epoll_event)
    (clients clients' : gmap Z ConnectedClient) (w w' : World) (fd : Z) (c : ConnectedClient) :
  handle_event default_client handle_input epoll_fd server_socket ev clients w
    = Ok clients' w' ->
  clients !! fd = Some c -> fd <> data_fd ev ->
  clients' !! fd = Some c.
Proof.
  intros Hrun Hc Hne. unfold handle_event in Hrun. rewrite bind_ret_if in Hrun.
  destruct (negb (Z.land (events ev) EPOLLRDHUP =? 0)).
  - unfold map_index in Hrun.
    destruct (clients !! data_fd ev); simpl in Hrun;
      unfold bind_M, handle_close, ret_M in Hrun; injection Hrun as <- _;
      rewrite lookup_delete_ne, ?lookup_insert_ne by congruence; assumption.
  - destruct (negb (Z.land (events ev) EPOLLIN =? 0)).
    + destruct (Z.eqb (data_fd ev) server_socket).
      * destruct (setup_new_client_registers _ _ _ _ _ _ Hrun) as (fd0 & Hnew & -> & _).
        rewrite lookup_insert_ne by congruence. assumption.
      * unfold map_index in Hrun.
        destruct (clients !! data_fd ev); simpl in Hrun; unfold bind_M, ret_M in Hrun;
          destruct (handle_input _ epoll_fd w); try discriminate;
          injection Hrun as <- _;
          rewrite ?lookup_insert_ne by congruence; assumption.
    + unfold ret_M in Hrun. injection Hrun as <- _. assumption.
Qed.

(** X9: the events of one wake-up leave the entry of every client that
    none of them names exactly as it was, whatever the input handler does. *)
Theorem other_clients_are_untouched (epoll_fd server_socket : Z) (evs : list epoll_event)
    (clients clients' : gmap Z ConnectedClient) (w w' : World) (fd : Z) (c : ConnectedClient) :
  handle_events default_client handle_input epoll_fd server_socket evs clients w
    = Ok clients' w' ->
  clients !! fd = Some c ->
  Forall (fun ev => data_fd ev <> fd) evs ->
  clients' !! fd = Some c.
Proof.
  revert clients w. induction evs as [|ev evs IH]; intros clients w Hrun Hc Hnone.
  - simpl in Hrun. unfold ret_M in Hrun. injection Hrun as <- _. assumption.
  - inversion Hnone as [|? ? Hev Hrest]; subst.
    simpl in Hrun. unfold bind_M in Hrun.
    destruct (handle_event default_client handle_input epoll_fd server_socket ev clients w)
      as [clients1 w1| |] eqn:Hone; try discriminate.
    apply (IH clients1 w1 Hrun); [|assumption].
    eapply handle_event_frame; [exact Hone|assumption|congruence].
Qed.

(** The branch taken depends on the hangup and input bits only. *)
Lemma handle_event_bits (epoll_fd server_socket : Z) (ev1 ev2 : epoll_event)
    (clients : gmap Z ConnectedClient) (w : World) :
  data_fd ev1 = data_fd ev2 ->
  Z.land (events ev1) EPOLLRDHUP = Z.land (events ev2) EPOLLRDHUP ->
  Z.land (events ev1) EPOLLIN = Z.land (events ev2) EPOLLIN ->
  handle_event default_client handle_input epoll_fd server_socket ev1 clients w
  = handle_event default_client handle_input epoll_fd server_socket ev2 clients w.
Proof.
  intros Hfd Hup Hin. unfold handle_event.
  rewrite !bind_ret_if, Hfd, Hup, Hin. reflexivity.
Qed.

(** X10: two events for the same descriptor that differ at most in the
    write-readiness bit are handled in the same way: the bit has no effect
    on the table or on the world. *)
Theorem write_readiness_bit_is_ignored (epoll_fd server_socket : Z) (ev1 ev2 : epoll_event)
    (clients : gmap Z ConnectedClient) (w : World) :
  data_fd ev1 = data_fd ev2 ->
  Z.lor (events ev1) EPOLLOUT = Z.lor (events ev2) EPOLLOUT ->
  handle_event default_client handle_input epoll_fd server_socket ev1 clients w
  = handle_event default_client handle_input epoll_fd server_socket ev2 clients w.
Proof.
  intros Hfd Hbits.
  assert (Hmask : forall m, Z.land EPOLLOUT m = 0 ->
            Z.land (events ev1) m = Z.land (events ev2) m).
  { intros m Hm.
    rewrite <- (Z.lor_0_r (Z.land (events ev1) m)), <- (Z.lor_0_r (Z.land (events ev2) m)).
    rewrite <- Hm, <- !Z.land_lor_distr_l, Hbits. reflexivity. }
  apply handle_event_bits; [assumption|apply Hmask; reflexivity|apply Hmask; reflexivity].
Qed.

(** The input branch for the listening socket. *)
Lemma accept_branch (epoll_fd server_socket : Z) (ev : epoll_event)
    (clients : gmap Z ConnectedClient) (w : World) :
  Z.land (events ev) EPOLLRDHUP = 0 ->
  Z.land (events ev) EPOLLIN <> 0 ->
  data_fd ev = server_socket ->
  handle_event default_client handle_input epoll_fd server_socket ev clients w
  = setup_new_client server_socket clients epoll_fd w.
Proof.
  intros Hup Hin Hsrv. unfold handle_event.
  rewrite bind_ret_if. rewrite Hup. simpl.
  destruct (Z.eqb_spec (Z.land (events ev) EPOLLIN) 0) as [|_]; [contradiction|]. simpl.
  destruct (Z.eqb_spec (data_fd ev) server_socket) as [_|]; [reflexivity|contradiction].
Qed.

(** X15: accepting a connection and then handling its hangup leaves the
    table as it was before the connection came; the connection has left the
    pending ones, nothing was sent, and the interest list is as before. *)
Theorem accept_then_hangup_restores_table (epoll_fd server_socket fd : Z) (rest : list Z)
    (accept_ev hangup_ev : epoll_event) (clients : gmap Z ConnectedClient) (w : World) :
  pending w = fd :: rest -> 0 <= fd ->
  clients !! fd = None -> interest w !! fd = None ->
  data_fd accept_ev = server_socket ->
  Z.land (events accept_ev) EPOLLRDHUP = 0 ->
  Z.land (events accept_ev) EPOLLIN <> 0 ->
  data_fd hangup_ev = fd ->
  Z.land (events hangup_ev) EPOLLRDHUP <> 0 ->
  exists w',
    handle_events default_client handle_input epoll_fd server_socket
      [accept_ev; hangup_ev] clients w
    = Ok clients w' /\
    pending w' = rest /\ sent w' = sent w /\ interest w' = interest w.
Proof.
  intros Hpend Hfd Hnew Hint Hsrv Hup1 Hin1 Hclient Hup2.
  simpl. unfold bind_M at 1.
  rewrite accept_branch by assumption.
  rewrite (setup_new_client_fresh _ _ fd rest) by assumption.
  unfold bind_M at 1.
  rewrite hangup_branch by assumption.
  rewrite Hclient, lookup_insert_eq. simpl.
  unfold bind_M, handle_close, ret_M. simpl.
  rewrite (delete_insert_id clients) by assumption.
  eexists. split; [reflexivity|]. simpl.
  rewrite (delete_insert_id (interest w)) by assumption.
  repeat split; reflexivity.
Qed.

(** Wake-ups in sequence: the second run starts from the table and the world
    that the first one left. *)
Lemma event_loop_from_app (epoll_fd server_socket : Z) (ws1 ws2 : list wait_result)
    (clients : gmap Z ConnectedClient) (w : World) :
  event_loop_from default_client handle_input epoll_fd server_socket (ws1 ++ ws2) clients w
  = bind_M (event_loop_from default_client handle_input epoll_fd server_socket ws1 clients)
           (event_loop_from default_client handle_input epoll_fd server_socket ws2) w.
Proof.
  revert clients w. unfold bind_M.
  induction ws1 as [|wr ws1 IH]; intros clients w; [reflexivity|].
  simpl. destruct (Z.ltb (num_events wr) 0); [reflexivity|].
  unfold bind_M.
  destruct (handle_events _ _ _ _ _ _ w) as [clients1 w1| |]; try reflexivity.
  apply IH.
Qed.

(** X11: when epoll_wait fails (a negative count), the loop ends the
    process with [EXIT_FAILURE] in the world that the wake-ups before it
    left; the events of later wake-ups are not handled. *)
Theorem epoll_wait_failure_stops_loop (epoll_fd server_socket : Z)
    (ws1 ws2 : list wait_result) (wr : wait_result)
    (clients clients1 : gmap Z ConnectedClient) (w w1 : World) :
  event_loop_from default_client handle_input epoll_fd server_socket ws1 clients w
    = Ok clients1 w1 ->
  num_events wr < 0 ->
  event_loop_from default_client handle_input epoll_fd server_socket
    (ws1 ++ wr :: ws2) clients w
  = Exit EXIT_FAILURE w1.
Proof.
  intros Hrun Hneg. rewrite event_loop_from_app. unfold bind_M. rewrite Hrun. simpl.
  destruct (Z.ltb_spec (num_events wr) 0); [reflexivity|lia].
Qed.

Section NoSend.

Hypothesis handle_input_keeps_log : forall c fd, keeps_log (handle_input c fd).

Lemma keeps_log_handle_event (epoll_fd server_socket : Z) (ev : epoll_event)
    (clients : gmap Z ConnectedClient) :
  keeps_log (handle_event default_client handle_input epoll_fd server_socket ev clients).
Proof using handle_input_keeps_log.
  unfold handle_event. apply keeps_log_bind.
  - apply keeps_log_if.
    + destruct (map_index default_client clients (data_fd ev)) as [clients1 c].
      apply keeps_log_bind; [apply keeps_log_handle_close|].
      intros c'. apply keeps_log_ret.
    + apply keeps_log_if; [|apply keeps_log_ret].
      apply keeps_log_if; [apply keeps_log_setup_new_client|].
      destruct (map_index default_client clients (data_fd ev)) as [clients1 c].
      apply keeps_log_bind; [apply handle_input_keeps_log|].
      intros c'. apply keeps_log_ret.
  - intros clients1. apply keeps_log_if; apply keeps_log_ret.
Qed.

Lemma keeps_log_handle_events (epoll_fd server_socket : Z) (evs : list epoll_event) :
  forall clients,
  keeps_log (handle_events default_client handle_input epoll_fd server_socket evs clients).
Proof using handle_input_keeps_log.
  induction evs as [|ev evs IH]; intros clients; [apply keeps_log_ret|].
  simpl. apply keeps_log_bind; [apply keeps_log_handle_event|exact IH].
Qed.

(** X12: the dispatch loop makes no call of send of its own: with an input
    handler that makes none, the log of sends after any wake-ups, whether the
    loop is still running or has exited, is the log it started with. *)
Theorem event_loop_never_sends (epoll_fd server_socket : Z) (waits : list wait_result) :
  keeps_log (event_loop default_client handle_input epoll_fd server_socket waits).
Proof using handle_input_keeps_log.
  unfold event_loop. generalize (∅ : gmap Z ConnectedClient).
  induction waits as [|wr waits IH]; intros clients; [apply keeps_log_ret|].
  simpl. apply keeps_log_if; [apply keeps_log_exit|].
  apply keeps_log_bind; [apply keeps_log_handle_events|exact IH].
Qed.

End NoSend.

End DispatcherMore.

(** ** The catalogue *)

Lemma bytes_eqb_eq (a b : list byte) : bytes_eqb a b = true <-> a = b.
Proof.
  revert b. induction a as [|x a IH]; intros [|y b]; simpl; try (split; congruence).
  rewrite andb_true_iff, IH. split.
  - intros [Hxy ->]. apply Byte.byte_dec_bl in Hxy. congruence.
  - intros Heq. injection Heq as -> ->. split; [apply Byte.byte_dec_lb|]; reflexivity.
Qed.

(** The last period of [p ++ s] is the one that [s] starts with, when [s] has
    no other. *)
Lemma last_dot_suffix_app (p t : list byte) :
  last_dot_suffix t = None ->
  last_dot_suffix (p ++ dot :: t) = Some (dot :: t).
Proof.
  intros Ht. induction p as [|c p IH]; simpl.
  - rewrite Ht. reflexivity.
  - rewrite IH. reflexivity.
Qed.

Lemma last_dot_suffix_Some (l s : list byte) :
  last_dot_suffix l = Some s -> exists p, l = p ++ s.
Proof.
  revert s. induction l as [|c r IH]; intros s; simpl; [discriminate|].
  destruct (last_dot_suffix r) as [s'|].
  - intros Heq. injection Heq as ->. destruct (IH s eq_refl) as [p ->].
    exists (c :: p). reflexivity.
  - destruct (Byte.eqb c dot); [|discriminate].
    intros Heq. injection Heq as <-. exists []. reflexivity.
Qed.

(** A name has the extension [.mp3] exactly when it is a stem that is not
    empty followed by [.mp3]. *)
Lemma extension_mp3_iff (filename : list byte) :
  extension filename = mp3_extension <->
  exists stem, stem <> [] /\ filename = stem ++ mp3_extension.
Proof.
  split.
  - unfold extension.
    destruct (bytes_eqb filename [dot] || bytes_eqb filename [dot; dot]); [discriminate|].
    destruct filename as [|c r]; [discriminate|].
    destruct (last_dot_suffix r) as [s|] eqn:Hs; simpl; [|discriminate].
    intros ->. destruct (last_dot_suffix_Some _ _ Hs) as [p ->].
    exists (c :: p). split; [discriminate|reflexivity].
  - intros (stem & Hstem & ->). unfold extension.
    destruct stem as [|c p]; [contradiction|].
    assert (Hspecial : bytes_eqb ((c :: p) ++ mp3_extension) [dot]
                       || bytes_eqb ((c :: p) ++ mp3_extension) [dot; dot] = false).
    { apply orb_false_iff. split; apply not_true_is_false; rewrite bytes_eqb_eq;
        intros Heq; apply (f_equal length) in Heq; rewrite length_app in Heq;
        simpl in Heq; lia. }
    rewrite Hspecial.
    change (default [] (last_dot_suffix (p ++ mp3_extension)) = mp3_extension).
    replace (last_dot_suffix (p ++ mp3_extension)) with (Some mp3_extension); [reflexivity|].
    symmetry. exact (last_dot_suffix_app p (String.list_byte_of_string "mp3"%string) eq_refl).
Qed.

(** X13: an entry is listed as a song exactly when its name is a stem that
    is not empty followed by [.mp3]; the comparison is by bytes, so it is
    case sensitive, and a file named [.mp3] alone is not a song. *)
Theorem song_iff_stem_dot_mp3 (filename : list byte) :
  is_song filename = true <->
  exists stem, stem <> [] /\ filename = stem ++ mp3_extension.
Proof. unfold is_song. rewrite bytes_eqb_eq. apply extension_mp3_iff. Qed.

(** The info file of a song is named after the song, with [.info] added. *)
Lemma info_file_of_song (filename : list byte) :
  is_song filename = true ->
  replace_extension filename info_extension
  = filename ++ String.list_byte_of_string ".info"%string.
Proof.
  unfold is_song. rewrite bytes_eqb_eq. intros Hext.
  unfold replace_extension. rewrite Hext.
  destruct (proj1 (extension_mp3_iff filename) Hext) as (stem & _ & ->).
  rewrite length_app.
  replace (length stem + length mp3_extension - length mp3_extension)%nat
    with (length stem) by lia.
  rewrite take_app_length. rewrite <- app_assoc. reflexivity.
Qed.

Lemma find_mp3_files_from_songs (regular_file : list byte -> option (list byte))
    (entries : list (list byte)) :
  forall (num : Z) (out : list listing_item),
  num + Z.of_nat (length (filter (fun f => is_song f = true) entries)) <= INT_MAX ->
  find_mp3_files_from regular_file entries num out
  = Some (num + Z.of_nat (length (filter (fun f => is_song f = true) entries)),
          out ++ concat (imap (fun i f => song_block regular_file (num + Z.of_nat i) f)
                           (filter (fun f => is_song f = true) entries))).
Proof.
  induction entries as [|f rest IH]; intros num out Hfit.
  - simpl. rewrite Z.add_0_r, app_nil_r. reflexivity.
  - simpl find_mp3_files_from. fold (is_song f).
    destruct (is_song f) eqn:Hsong.
    + rewrite filter_cons_True in Hfit |- * by assumption.
      simpl length in Hfit |- *.
      destruct (Z.eqb_spec num INT_MAX); [lia|].
      rewrite info_file_of_song by assumption.
      rewrite IH by lia.
      f_equal. f_equal; [lia|].
      rewrite imap_cons. simpl concat. unfold song_block at 2.
      rewrite Z.add_0_r.
      rewrite (imap_ext ((fun i f0 => song_block regular_file (num + Z.of_nat i) f0) ∘ S)
                 (fun i f0 => song_block regular_file (num + 1 + Z.of_nat i) f0));
        [|intros i x _; simpl; f_equal; lia].
      destruct (regular_file _); rewrite <- ?app_assoc; reflexivity.
    + rewrite filter_cons_False in Hfit |- * by (rewrite Hsong; discriminate).
      apply IH. assumption.
Qed.

(** X14: for a directory with at most [INT_MAX] entries, [find_mp3_files]
    returns the number of songs, which is at most the number of entries, and
    writes the songs in the order of the iterator, numbered from 0, each one
    followed by the contents of the regular file named after it with [.info]
    added, when there is one. *)
Theorem find_mp3_files_lists_songs_in_order (regular_file : list byte -> option (list byte))
    (entries : list (list byte)) :
  Z.of_nat (length entries) <= INT_MAX ->
  find_mp3_files regular_file entries
  = Some (Z.of_nat (length (filter (fun f => is_song f = true) entries)),
          concat (imap (fun i f => song_block regular_file (Z.of_nat i) f)
                    (filter (fun f => is_song f = true) entries))) /\
  Z.of_nat (length (filter (fun f => is_song f = true) entries)) <= Z.of_nat (length entries).
Proof.
  intros Hfit.
  assert (Hle : (length (filter (fun f => is_song f = true) entries) <= length entries)%nat)
    by apply length_filter.
  split; [|lia].
  unfold find_mp3_files. rewrite find_mp3_files_from_songs by lia. reflexivity.
Qed.

(** ** Instances *)

Lemma partial_net_makes_progress (k : Z) : 0 < k -> makes_progress (quiet_world (partial_net k)).
Proof. intros Hk n fd [|b buf] Hne; [contradiction|]. simpl ret. simpl length. lia. Qed.

Lemma partial_net_posix (k : Z) : posix_send (quiet_world (partial_net k)).
Proof. intros n fd buf. simpl. lia. Qed.

Lemma send_next_chunk_result_range_witness :
  -1 <= 3 <= Z.min (7 - 0) 4 /\ curr_loc (sender_at abcdefg 3) = 0 + Z.max 3 0.
Proof.
  pose (w1 := set_sent (fun l => l ++ [(7, [x61; x62; x63; x64])]) (quiet_world (partial_net 3))).
  destruct (send_next_chunk_result_range 4 ltac:(by_evaluation)
              (sender_at abcdefg 0) (sender_at abcdefg 3) 7 3 (quiet_world (partial_net 3)) w1)
    as (Hrange & _ & Hcur & _).
  - by_evaluation.
  - apply partial_net_posix.
  - reflexivity.
  - split; [exact Hrange|exact Hcur].
Defined.

Lemma accepted_stream_is_payload_prefix_witness :
  exists w',
    rtc (call_step 4) (sender_at abcdefg 0, quiet_world (partial_net 3))
                      (sender_at abcdefg 6, w') /\
    accepted w' = [x61; x62; x63; x64; x65; x66].
Proof.
  pose (w0 := quiet_world (partial_net 3)).
  pose (w1 := set_sent (fun l => l ++ [(7, [x61; x62; x63; x64])]) w0).
  pose (w2 := set_sent (fun l => l ++ [(7, [x64; x65; x66; x67])]) w1).
  assert (Hreach : rtc (call_step 4) (sender_at abcdefg 0, w0) (sender_at abcdefg 6, w2)).
  { apply rtc_l with (sender_at abcdefg 3, w1); [exists 7, 3; reflexivity|].
    apply rtc_once. exists 7, 3. reflexivity. }
  exists w2. split; [exact Hreach|].
  apply (accepted_stream_is_payload_prefix 4 ltac:(by_evaluation)
           (sender_at abcdefg 0) (sender_at abcdefg 6) w0 w2).
  - by_evaluation.
  - apply partial_net_posix.
  - reflexivity.
  - exact Hreach.
Defined.

Lemma drain_terminates_under_progress_witness :
  exists ns s' w',
    send_all 4 8 (sender_at abcdefg 0) 7 (quiet_world (partial_net 3)) = Ok (Some (ns, s')) w' /\
    sum_Z ns = 7 /\
    accepted w' = abcdefg.
Proof.
  destruct (drain_terminates_under_progress 4 ltac:(by_evaluation)
              (sender_at abcdefg 0) 7 (quiet_world (partial_net 3)))
    as (ns & s' & w' & Hrun & Hsum & _ & _ & _ & Hacc & _).
  - by_evaluation.
  - apply partial_net_makes_progress. lia.
  - exists ns, s', w'. split; [exact Hrun|]. split; [exact Hsum|exact Hacc].
Defined.

Lemma constructed_payload_is_delivered_witness :
  exists ns s' w',
    send_all 4 6 (sender_at [x61; x62; x63; x64; x65] 0) 7 (quiet_world (partial_net 3))
      = Ok (Some (ns, s')) w' /\
    accepted w' = [x61; x62; x63; x64; x65].
Proof.
  destruct (constructed_payload_is_delivered 4 ltac:(by_evaluation) abcdefg 5
              (sender_at [x61; x62; x63; x64; x65] 0) 7 (quiet_world (partial_net 3)))
    as (ns & s' & w' & Hrun & Hacc & _).
  - by_evaluation.
  - reflexivity.
  - apply partial_net_makes_progress. lia.
  - reflexivity.
  - exists ns, s', w'. split; [exact Hrun|exact Hacc].
Defined.

Lemma overreported_send_breaks_bounds_witness :
  exists s1 w1,
    send_next_chunk 4 (sender_at abcdefg 0) 7 (quiet_world (lying_net 100)) = Ok (100, s1) w1 /\
    send_next_chunk 4 s1 7 w1 = Fault.
Proof.
  destruct (overreported_send_breaks_bounds 4 ltac:(by_evaluation)
              (sender_at abcdefg 0) 7 (quiet_world (lying_net 100)) 100)
    as (s1 & w1 & Hcall & _ & Hfault).
  - by_evaluation.
  - by_evaluation.
  - reflexivity.
  - by_evaluation.
  - by_evaluation.
  - exists s1, w1. split; [exact Hcall|apply Hfault].
Defined.

Lemma setup_new_client_accepts_one_witness :
  exists clients' w',
    setup_new_client 4 {[ 8 := ConnectedClient_new 8 RECEIVING ]} 3
      (set_pending (fun _ => [7; 9]) (registered_world [8]))
      = Ok clients' w' /\
    clients' !! 7 = Some (ConnectedClient_new 7 RECEIVING) /\
    pending w' = [9].
Proof.
  destruct (setup_new_client_accepts_one 4 3 7 [9] {[ 8 := ConnectedClient_new 8 RECEIVING ]}
              (set_pending (fun _ => [7; 9]) (registered_world [8])))
    as (clients' & w' & Hrun & Hnew & _ & Hpend & _).
  - reflexivity.
  - by_evaluation.
  - reflexivity.
  - reflexivity.
  - exists clients', w'. split; [exact Hrun|]. split; [exact Hnew|exact Hpend].
Defined.


Lemma input_for_unknown_handle_creates_entry_witness :
  handle_event (ConnectedClient_new 0 RECEIVING) idle_input 3 4
    {| events := EPOLLIN; data_fd := 9 |} ∅ (quiet_world accepting_net)
  = Ok {[ 9 := ConnectedClient_new 0 RECEIVING ]} (quiet_world accepting_net).
Proof.
  destruct (input_for_unknown_handle_creates_entry (ConnectedClient_new 0 RECEIVING) idle_input
              3 4 {| events := EPOLLIN; data_fd := 9 |} ∅
              (quiet_world accepting_net) (quiet_world accepting_net)
              (ConnectedClient_new 0 RECEIVING))
    as (Hrun & _).
  - reflexivity.
  - by_evaluation.
  - by_evaluation.
  - reflexivity.
  - reflexivity.
  - rewrite Hrun. reflexivity.
Defined.

Lemma other_clients_are_untouched_witness :
  exists clients' w',
    handle_events (ConnectedClient_new 0 RECEIVING) idle_input 3 4
      [ {| events := EPOLLRDHUP; data_fd := 7 |}; {| events := EPOLLIN; data_fd := 9 |} ]
      {[ 7 := mid_send_client 7; 8 := mid_send_client 8 ]} (registered_world [7; 8])
      = Ok clients' w' /\
    clients' !! 8 = Some (mid_send_client 8).
Proof.
  destruct (handle_events (ConnectedClient_new 0 RECEIVING) idle_input 3 4
      [ {| events := EPOLLRDHUP; data_fd := 7 |}; {| events := EPOLLIN; data_fd := 9 |} ]
      {[ 7 := mid_send_client 7; 8 := mid_send_client 8 ]} (registered_world [7; 8]))
    as [clients' w'| |] eqn:Hrun; [|discriminate Hrun..].
  exists clients', w'. split; [reflexivity|].
  apply (other_clients_are_untouched _ _ _ _ _ _ _ _ _ 8 (mid_send_client 8) Hrun).
  - reflexivity.
  - repeat constructor; discriminate.
Defined.

Lemma write_readiness_bit_is_ignored_witness :
  handle_event (ConnectedClient_new 0 RECEIVING) idle_input 3 4
    {| events := Z.lor EPOLLIN EPOLLOUT; data_fd := 7 |}
    {[ 7 := mid_send_client 7 ]} (registered_world [7])
  = handle_event (ConnectedClient_new 0 RECEIVING) idle_input 3 4
    {| events := EPOLLIN; data_fd := 7 |}
    {[ 7 := mid_send_client 7 ]} (registered_world [7]).
Proof.
  apply write_readiness_bit_is_ignored; reflexivity.
Defined.

Lemma accept_then_hangup_restores_table_witness :
  exists w',
    handle_events (ConnectedClient_new 0 RECEIVING) idle_input 3 4
      [ {| events := EPOLLIN; data_fd := 4 |};
        {| events := Z.lor EPOLLRDHUP EPOLLIN; data_fd := 7 |} ]
      {[ 8 := mid_send_client 8 ]}
      (set_pending (fun _ => [7]) (registered_world [8]))
    = Ok {[ 8 := mid_send_client 8 ]} w' /\
    pending w' = [].
Proof.
  destruct (accept_then_hangup_restores_table (ConnectedClient_new 0 RECEIVING) idle_input
              3 4 7 []
              {| events := EPOLLIN; data_fd := 4 |}
              {| events := Z.lor EPOLLRDHUP EPOLLIN; data_fd := 7 |}
              {[ 8 := mid_send_client 8 ]}
              (set_pending (fun _ => [7]) (registered_world [8])))
    as (w' & Hrun & Hpend & _).
  - reflexivity.
  - by_evaluation.
  - reflexivity.
  - reflexivity.
  - reflexivity.
  - reflexivity.
  - by_evaluation.
  - reflexivity.
  - by_evaluation.
  - exists w'. split; [exact Hrun|exact Hpend].
Defined.

Lemma epoll_wait_failure_stops_loop_witness :
  event_loop_from (ConnectedClient_new 0 RECEIVING) idle_input 3 4
    ([ {| num_events := 1; ready := [ {| events := EPOLLIN; data_fd := 4 |} ] |} ]
     ++ {| num_events := -1; ready := [] |}
        :: [ {| num_events := 1; ready := [ {| events := EPOLLRDHUP; data_fd := 7 |} ] |} ])
    ∅ (set_pending (fun _ => [7]) (quiet_world accepting_net))
  = Exit EXIT_FAILURE
      {| net := accepting_net; sent := [];
         interest := {[ 7 := Z.lor EPOLLIN EPOLLRDHUP ]};
         nonblocking := {[ 7 ]}; pending := [] |}.
Proof.
  apply (epoll_wait_failure_stops_loop (ConnectedClient_new 0 RECEIVING) idle_input 3 4
           _ _ _ ∅ {[ 7 := ConnectedClient_new 7 RECEIVING ]}).
  - reflexivity.
  - by_evaluation.
Defined.

Lemma event_loop_never_sends_witness :
  keeps_log (event_loop (ConnectedClient_new 0 RECEIVING) idle_input 3 4
               [ {| num_events := 1; ready := [ {| events := EPOLLIN; data_fd := 4 |} ] |} ]).
Proof.
  apply event_loop_never_sends. intros c fd w. reflexivity.
Defined.

Lemma find_mp3_files_lists_songs_in_order_witness :
  find_mp3_files sample_files sample_entries
  = Some (2, [ song_line 0 (String.list_byte_of_string "a.mp3"%string);
               info_lines (String.list_byte_of_string "Artist A"%string);
               song_line 1 (String.list_byte_of_string "c.mp3"%string) ]).
Proof.
  destruct (find_mp3_files_lists_songs_in_order sample_files sample_entries) as [Hrun _].
  - by_evaluation.
  - rewrite Hrun. reflexivity.
Defined.
